(** * line_talk_graph: the analysis pipeline of [main.py]

    A shallow embedding of [LineTalkAnalyzer.load_and_analyze] and
    [LineTalkAnalyzer.update_graph]: discovery of the [*.txt] exports,
    encoding-tolerant line counting, the descending sort by line count and
    the name-based exclusion that feeds the horizontal bar chart. *)

From Stdlib Require Import Strings.String Strings.Byte.
From Stdlib Require Import NArith ZArith Arith Bool Lia.
From Stdlib Require Import Sorting.Sorted Sorting.Permutation.
From Stdlib Require DecimalNat.
From Stdlib Require Import List.
Import ListNotations.

Set Implicit Arguments.

(** ** Python values *)

(** A Python [str] is a sequence of Unicode code points. *)
Definition char := N.
Definition str := list char.

(** [bytes], as read from a file opened in binary. *)
Definition bytes := list byte.

Definition str_eq_dec : forall (a b : str), {a = b} + {a <> b} :=
  list_eq_dec N.eq_dec.

(** [a == b] on [str]. *)
Definition str_eqb (a b : str) : bool :=
  if str_eq_dec a b then true else false.

(** An ASCII literal of the source, as a [str]. *)
Definition lit (s : string) : str :=
  map Byte.to_N (list_byte_of_string s).

(** Truthiness of a [str] or a [list]: non-empty. *)
Definition truthy {A : Type} (l : list A) : bool :=
  match l with [] => false | _ :: _ => true end.

(** ** The records collected by [load_and_analyze]

    [{"name": nickname, "count": line_count}] (main.py:118). *)
Record Record_ := mkRecord { name : str; count : nat }.

(** ** [list.sort(key=..., reverse=...)]

    CPython sorts with [<] on the keys only, stably; with [reverse=True] it
    reverses the list, sorts it ascending and reverses the result, so that
    equal keys keep their original order. *)
Section ListSort.
Variable A : Type.
Variable key : A -> nat.

(** Insert [x], which stood before every element of [s] in the input,
    into the ascending [s]: [x] passes only strictly smaller keys. *)
Fixpoint insert_asc (x : A) (s : list A) : list A :=
  match s with
  | [] => [x]
  | y :: s' => if key y <? key x then y :: insert_asc x s' else x :: y :: s'
  end.

Fixpoint sort_asc (l : list A) : list A :=
  match l with
  | [] => []
  | x :: l' => insert_asc x (sort_asc l')
  end.

Definition list_sort (reverse : bool) (l : list A) : list A :=
  if reverse then rev (sort_asc (rev l)) else sort_asc l.
End ListSort.

(** [data.sort(key=lambda x: x["count"], reverse=True)] (main.py:121). *)
Definition rank (data : list Record_) : list Record_ :=
  list_sort count true data.

(** ** [str] methods used by [update_graph] *)

(** [str.isspace] on one code point: the table of CPython's
    [_PyUnicode_IsWhitespace]. *)
Definition isspace (c : char) : bool :=
  ((0x09 <=? c) && (c <=? 0x0D) || (0x1C <=? c) && (c <=? 0x20)
   || (c =? 0x85) || (c =? 0xA0) || (c =? 0x1680)
   || (0x2000 <=? c) && (c <=? 0x200A)
   || (c =? 0x2028) || (c =? 0x2029) || (c =? 0x202F) || (c =? 0x205F)
   || (c =? 0x3000))%N.

Fixpoint lstrip (s : str) : str :=
  match s with
  | [] => []
  | c :: s' => if isspace c then lstrip s' else s
  end.

Definition rstrip (s : str) : str := rev (lstrip (rev s)).

(** [s.strip()] *)
Definition strip (s : str) : str := rstrip (lstrip s).

Definition comma : char := 44%N.

(** Prepend [c] to the first piece of a split. *)
Definition cons_head (c : char) (ps : list str) : list str :=
  match ps with
  | [] => [[c]]
  | p :: ps' => (c :: p) :: ps'
  end.

(** [s.split(sep)] for a one-character separator: every occurrence of
    [sep] ends a piece, and the empty string splits into one empty piece. *)
Fixpoint split (sep : char) (s : str) : list str :=
  match s with
  | [] => [[]]
  | c :: s' => if (c =? sep)%N then [] :: split sep s'
               else cons_head c (split sep s')
  end.

(** [x in names] on a list of [str]. *)
Definition str_in (x : str) (names : list str) : bool :=
  existsb (str_eqb x) names.

(** ** [update_graph] (main.py:143-168) *)

(** main.py:147-148: the names typed into the exclusion field. *)
Definition exclude_names (exclude_input_text : str) : list str :=
  let exclude_text := strip exclude_input_text in
  if truthy exclude_text
  then map strip (filter (fun name_ => truthy (strip name_))
                         (split comma exclude_text))
  else [].

(** main.py:151 *)
Definition filtered_data (data : list Record_) (exclude_input_text : str)
  : list Record_ :=
  filter (fun d => negb (str_in (name d) (exclude_names exclude_input_text)))
         data.

(** What the axes hold after the drawing calls: the bar positions and
    widths given to [barh], the ticks and their labels. *)
Record Chart := mkChart {
  bar_y : list nat;
  bar_width : list nat;
  yticks : list nat;
  yticklabels : list str
}.

(** The axes after [cla()]. *)
Definition empty_chart : Chart := mkChart [] [] [] [].

(** main.py:153-161; [l[::-1]] is [rev l]. *)
Definition draw_chart (data : list Record_) (exclude_input_text : str)
  : Chart :=
  let filtered := filtered_data data exclude_input_text in
  let names := map name filtered in
  let counts := map count filtered in
  let y_pos := seq 0 (length names) in
  mkChart y_pos (rev counts) y_pos (rev names).

(** The chart series, as the parallel arrays handed to the chart:
    labels and counts in render order. *)
Definition to_chart_series (ranked : list Record_) (excluded_raw : str)
  : list str * list nat :=
  let c := draw_chart ranked excluded_raw in
  (yticklabels c, bar_width c).

(** ** [update_table] (main.py:127-141)

    One row per record: the 1-based rank, the nickname and the count (the
    cells show them as text, the count with thousands separators). *)
Definition TableRow : Type := nat * str * nat.

Fixpoint table_rows (i : nat) (data : list Record_) : list TableRow :=
  match data with
  | [] => []
  | item :: rest => (i + 1, name item, count item) :: table_rows (S i) rest
  end.

(** ** [os.path] (POSIX flavour) *)

Definition sep : char := 47%N.
Definition extsep : char := 46%N.

(** [p.rfind(c)]: the highest index of [c] in [p], or [-1]. *)
Fixpoint rfind (c : char) (p : str) : Z :=
  match p with
  | [] => (-1)%Z
  | x :: p' =>
      let r := rfind c p' in
      if (0 <=? r)%Z then (r + 1)%Z
      else if (x =? c)%N then 0%Z else (-1)%Z
  end.

(** [p[i:j]] for [0 <= i], [0 <= j]. *)
Definition slice (p : str) (i j : nat) : str := firstn (j - i) (skipn i p).

(** [s.endswith(suffix)] *)
Definition endswith (s suffix : str) : bool :=
  (length suffix <=? length s)
  && str_eqb (skipn (length s - length suffix) s) suffix.

(** [s.startswith(prefix)] *)
Definition startswith (s prefix : str) : bool :=
  str_eqb (firstn (length prefix) s) prefix.

(** [os.path.join(a, b)] *)
Definition join (a b : str) : str :=
  if startswith b [sep] || negb (truthy a) then b
  else if endswith a [sep] then a ++ b
  else a ++ sep :: b.

(** [os.path.basename(p)]: [p[p.rfind('/') + 1:]]. *)
Definition basename (p : str) : str :=
  skipn (Z.to_nat (rfind sep p + 1)) p.

(** The loop of [genericpath._splitext] that skips leading dots: [true]
    when a character other than the dot stands in
    [p[filenameIndex : filenameIndex + steps]]. *)
Fixpoint splitext_scan (p : str) (filenameIndex steps : nat) : bool :=
  match steps with
  | O => false
  | S k =>
      if negb (str_eqb (slice p filenameIndex (filenameIndex + 1)) [extsep])
      then true
      else splitext_scan p (S filenameIndex) k
  end.

(** [os.path.splitext(p)] *)
Definition splitext (p : str) : str * str :=
  let sepIndex := rfind sep p in
  let dotIndex := rfind extsep p in
  if (sepIndex <? dotIndex)%Z
     && splitext_scan p (Z.to_nat (sepIndex + 1))
                      (Z.to_nat (dotIndex - (sepIndex + 1)))
  then (firstn (Z.to_nat dotIndex) p, skipn (Z.to_nat dotIndex) p)
  else (p, []).

(** ** [glob.glob(os.path.join(target_dir, "*.txt"))] *)

(** [glob._ishidden]: the name starts with a dot. *)
Definition ishidden (n : str) : bool :=
  match n with
  | c :: _ => (c =? extsep)%N
  | [] => false
  end.

(** [fnmatch] against [*.txt], case-sensitive. *)
Definition fnmatch_txt (n : str) : bool := endswith n (lit ".txt").

(** ** Codecs and text files *)

Inductive exn :=
| OSError (errno : nat) (filename : str)
| UnicodeDecodeError (encoding : str).

Inductive result (A : Type) :=
| Ok (a : A)
| Raise (e : exn).
Arguments Ok {A} a.
Arguments Raise {A} e.

Definition bind {A B : Type} (m : result A) (k : A -> result B) : result B :=
  match m with
  | Ok a => k a
  | Raise e => Raise e
  end.

Notation "x <- m ;; k" := (bind m (fun x => k))
  (at level 61, m at next level, right associativity).

(** [try: body except UnicodeDecodeError: handler] *)
Definition try_except_UnicodeDecodeError {A : Type}
  (body handler : result A) : result A :=
  match body with
  | Raise (UnicodeDecodeError _) => handler
  | r => r
  end.

Definition continuation (b : N) : bool := ((0x80 <=? b) && (b <=? 0xBF))%N.
Definition between (lo hi b : N) : bool := ((lo <=? b) && (b <=? hi))%N.

(** Strict UTF-8: no overlong forms, no surrogates, nothing above
    U+10FFFF. [None] is a [UnicodeDecodeError]. *)
Fixpoint utf8_chars (bs : list N) : option str :=
  match bs with
  | [] => Some []
  | b0 :: r0 =>
      if (b0 <? 0x80)%N then option_map (cons b0) (utf8_chars r0)
      else if between 0xC2 0xDF b0 then
        match r0 with
        | b1 :: r1 =>
            if continuation b1
            then option_map (cons ((b0 - 0xC0) * 0x40 + (b1 - 0x80))%N)
                            (utf8_chars r1)
            else None
        | _ => None
        end
      else if between 0xE0 0xEF b0 then
        match r0 with
        | b1 :: b2 :: r2 =>
            if between (if (b0 =? 0xE0)%N then 0xA0 else 0x80)
                       (if (b0 =? 0xED)%N then 0x9F else 0xBF) b1
               && continuation b2
            then option_map
                   (cons ((b0 - 0xE0) * 0x1000 + (b1 - 0x80) * 0x40
                          + (b2 - 0x80))%N)
                   (utf8_chars r2)
            else None
        | _ => None
        end
      else if between 0xF0 0xF4 b0 then
        match r0 with
        | b1 :: b2 :: b3 :: r3 =>
            if between (if (b0 =? 0xF0)%N then 0x90 else 0x80)
                       (if (b0 =? 0xF4)%N then 0x8F else 0xBF) b1
               && continuation b2 && continuation b3
            then option_map
                   (cons ((b0 - 0xF0) * 0x40000 + (b1 - 0x80) * 0x1000
                          + (b2 - 0x80) * 0x40 + (b3 - 0x80))%N)
                   (utf8_chars r3)
            else None
        | _ => None
        end
      else None
  end.

Definition utf8_decode (b : bytes) : result str :=
  match utf8_chars (map Byte.to_N b) with
  | Some s => Ok s
  | None => Raise (UnicodeDecodeError (lit "utf-8"))
  end.

(** A non-ASCII literal of the source (the file is UTF-8). *)
Definition u (s : string) : str :=
  match utf8_chars (map Byte.to_N (list_byte_of_string s)) with
  | Some t => t
  | None => []
  end.

Definition LF : char := 10%N.
Definition CR : char := 13%N.

(** Universal newlines, the default of [open(..., 'r')]: ["\r\n"] and a
    lone ["\r"] are read as ["\n"]. [pendingcr] tells that the previous
    character was a ["\r"], already given out as ["\n"]. *)
Fixpoint translate_newlines (pendingcr : bool) (s : str) : str :=
  match s with
  | [] => []
  | c :: s' =>
      if (c =? CR)%N then LF :: translate_newlines true s'
      else if (c =? LF)%N then
        if pendingcr then translate_newlines false s'
        else LF :: translate_newlines false s'
      else c :: translate_newlines false s'
  end.

(** [readlines] on the translated text: a line ends after each ["\n"],
    and what follows the last one is a line when it is not empty. [cur]
    holds the characters of the line being read, last one first. *)
Fixpoint readlines_from (cur : str) (s : str) : list str :=
  match s with
  | [] => if truthy cur then [rev cur] else []
  | c :: s' =>
      if (c =? LF)%N then rev (c :: cur) :: readlines_from [] s'
      else readlines_from (c :: cur) s'
  end.

(** [f.readlines()] on a text file holding the decoded [text]. *)
Definition readlines (text : str) : list str :=
  readlines_from [] (translate_newlines false text).

(** ** The files

    [scandir d] lists the names in directory [d] in the order the system
    gives them (nothing when [d] does not exist); [open_rb p] gives the
    content of [p] or the [OSError] that opening or reading it raises. *)
Record FileSystem := mkFS {
  scandir : str -> list str;
  open_rb : str -> result bytes
}.

(** The paths [glob.glob(dirname + "/*.txt")] returns: the matching names
    that are not hidden, in listing order, joined to [dirname]. *)
Definition glob_txt (fs : FileSystem) (dirname : str) : list str :=
  map (join dirname)
      (filter (fun n => negb (ishidden n) && fnmatch_txt n)
              (scandir fs dirname)).

(** ** The window *)

Inductive Dialog :=
| MessageWarning (title text : str).

Record Window := mkWindow {
  table : list TableRow;
  exclude_input : str;
  canvas : Chart;
  dialogs : list Dialog;
  stdout : list str
}.

(** main.py:38 *)
Definition target_dir : str := lit "talk_upload".

Definition update_table (data : list Record_) (w : Window) : Window :=
  mkWindow (table_rows 0 data) (exclude_input w) (canvas w) (dialogs w)
           (stdout w).

Definition update_graph (data : list Record_) (w : Window) : Window :=
  mkWindow (table w) (exclude_input w)
           (draw_chart data (exclude_input w)) (dialogs w) (stdout w).

Definition no_files_warning : Dialog :=
  MessageWarning
    (u "ファイルなし")
    (lit "'" ++ target_dir ++ lit "' " ++ u "にtxtファイルが見つかりません。").

Section Analyzer.
(** The [cp932] codec of the Python library, and [str(e)]. *)
Variable cp932_decode : bytes -> result str.
Variable str_of_exn : exn -> str.
Variable fs : FileSystem.

(** [with open(file_path, 'r', encoding=...) as f:
       line_count = len(f.readlines())] *)
Definition read_line_count (decode : bytes -> result str)
  (file_path : str) : result nat :=
  raw <- open_rb fs file_path ;;
  text <- decode raw ;;
  Ok (length (readlines text)).

(** main.py:108-113 *)
Definition line_count_of (file_path : str) : result nat :=
  try_except_UnicodeDecodeError
    (read_line_count utf8_decode file_path)
    (read_line_count cp932_decode file_path).

(** [f"Error reading {filename}: {e}"] *)
Definition error_line (filename : str) (e : exn) : str :=
  lit "Error reading " ++ filename ++ lit ": " ++ str_of_exn e.

(** The loop of main.py:100-118 over the remaining [files], with the
    [data] collected and the lines printed so far. *)
Fixpoint for_files (files : list str) (data : list Record_)
  (out : list str) : list Record_ * list str :=
  match files with
  | [] => (data, out)
  | file_path :: rest =>
      let filename := basename file_path in
      let nickname := fst (splitext filename) in
      match line_count_of file_path with
      | Raise e => for_files rest data (out ++ [error_line filename e])
      | Ok line_count =>
          for_files rest (data ++ [mkRecord nickname line_count]) out
      end
  end.

(** main.py:91-125 *)
Definition load_and_analyze (w : Window) : Window :=
  let files := glob_txt fs target_dir in
  if negb (truthy files) then
    mkWindow (table w) (exclude_input w) (canvas w)
             (dialogs w ++ [no_files_warning]) (stdout w)
  else
    let (data, out) := for_files files [] (stdout w) in
    let data := rank data in
    let w := mkWindow (table w) (exclude_input w) (canvas w) (dialogs w)
                      out in
    update_graph data (update_table data w).
End Analyzer.

(** ** [configure_japanese_font] (main.py:14-22) *)

(** main.py:17 *)
Definition target_fonts : list str :=
  [lit "Meiryo"; lit "Yu Gothic"; lit "MS Gothic"; lit "Hiragino Sans";
   lit "TakaoGothic"; lit "IPAGothic"].

(** The loop of main.py:18-21 over the remaining [targets]; [fonts] are
    the names of the installed fonts and [family] is
    [plt.rcParams['font.family']], a list of names, which the assignment
    sets to the one name found. *)
Fixpoint choose_font (targets fonts family : list str) : list str :=
  match targets with
  | [] => family
  | font :: rest =>
      if str_in font fonts then [font] else choose_font rest fonts family
  end.

Definition configure_japanese_font (fonts family : list str) : list str :=
  choose_font target_fonts fonts family.

(** ** The texts of the table cells (main.py:131, 136, 139) *)

Fixpoint chars_of_uint (u : Decimal.uint) : str :=
  match u with
  | Decimal.Nil => []
  | Decimal.D0 u' => 48%N :: chars_of_uint u'
  | Decimal.D1 u' => 49%N :: chars_of_uint u'
  | Decimal.D2 u' => 50%N :: chars_of_uint u'
  | Decimal.D3 u' => 51%N :: chars_of_uint u'
  | Decimal.D4 u' => 52%N :: chars_of_uint u'
  | Decimal.D5 u' => 53%N :: chars_of_uint u'
  | Decimal.D6 u' => 54%N :: chars_of_uint u'
  | Decimal.D7 u' => 55%N :: chars_of_uint u'
  | Decimal.D8 u' => 56%N :: chars_of_uint u'
  | Decimal.D9 u' => 57%N :: chars_of_uint u'
  end.

(** [str(n)] for an [int] that is not negative: its decimal digits. *)
Definition str_of_nat (n : nat) : str := chars_of_uint (Nat.to_uint n).

(** The thousands grouping of the format [","], on the digits read from
    the right: a comma before every digit that follows a full group of
    three; [k] digits of the current group are already out. *)
Fixpoint group_thousands (k : nat) (digits_from_right : str) : str :=
  match digits_from_right with
  | [] => []
  | d :: r =>
      if k =? 3 then comma :: d :: group_thousands 1 r
      else d :: group_thousands (S k) r
  end.

(** [f"{n:,}"] *)
Definition format_thousands (n : nat) : str :=
  rev (group_thousands 0 (rev (str_of_nat n))).

(** The three texts of a row: [str(i + 1)], the name, [f"{count:,}"]. *)
Definition row_texts (row : TableRow) : str * str * str :=
  let '(i, nickname, line_count) := row in
  (str_of_nat i, nickname, format_thousands line_count).

(** [s.replace(",", "")] *)
Definition remove_commas (s : str) : str :=
  filter (fun c => negb (c =? comma)%N) s.

Fixpoint uint_of_chars (s : str) : option Decimal.uint :=
  match s with
  | [] => Some Decimal.Nil
  | c :: s' =>
      match uint_of_chars s' with
      | None => None
      | Some u =>
          if (c =? 48)%N then Some (Decimal.D0 u)
          else if (c =? 49)%N then Some (Decimal.D1 u)
          else if (c =? 50)%N then Some (Decimal.D2 u)
          else if (c =? 51)%N then Some (Decimal.D3 u)
          else if (c =? 52)%N then Some (Decimal.D4 u)
          else if (c =? 53)%N then Some (Decimal.D5 u)
          else if (c =? 54)%N then Some (Decimal.D6 u)
          else if (c =? 55)%N then Some (Decimal.D7 u)
          else if (c =? 56)%N then Some (Decimal.D8 u)
          else if (c =? 57)%N then Some (Decimal.D9 u)
          else None
      end
  end.

(** The number that a string of ASCII digits writes, as [int(s)] reads
    it; [None] for the empty string and for any other character. *)
Definition int_of_str (s : str) : option nat :=
  if truthy s then option_map Nat.of_uint (uint_of_chars s) else None.

(** An ASCII digit. *)
Definition isdigit (c : char) : bool := ((48 <=? c) && (c <=? 57))%N.

(** * Vocabulary of the statements *)

(** Counts do not increase along the list. *)
Definition count_nonincreasing (l : list Record_) : Prop :=
  StronglySorted (fun a b => count b <= count a) l.

(** The records of [l] whose count is [c], in the order of [l]. *)
Definition with_count (c : nat) (l : list Record_) : list Record_ :=
  filter (fun r => count r =? c) l.

(** The exclusion set in the spec's words: the comma-separated entries of
    the raw string, each trimmed, the empty ones discarded. *)
Definition spec_excluded_terms (excluded_raw : str) : list str :=
  filter truthy (map strip (split comma excluded_raw)).

(** The records of [ranked] whose label is no member of [terms]. *)
Definition spec_kept (terms : list str) (ranked : list Record_)
  : list Record_ :=
  filter (fun d => if in_dec str_eq_dec (name d) terms then false else true)
         ranked.

(** Every character of [w] is white space. *)
Definition blank (w : str) : Prop := Forall (fun c => isspace c = true) w.

(** Append [w] to the last piece. *)
Fixpoint app_last (w : str) (ps : list str) : list str :=
  match ps with
  | [] => []
  | [p] => [p ++ w]
  | p :: ps' => p :: app_last w ps'
  end.

(** Prepend [w] to the first piece. *)
Definition app_first (w : str) (ps : list str) : list str :=
  match ps with
  | [] => []
  | p :: ps' => (w ++ p) :: ps'
  end.

(** The three line-ending conventions of text files. *)
Inductive newline_convention := UnixLF | WindowsCRLF | ClassicCR.

(** [text] keeps to one convention: a Unix text has no ["\r"], a classic
    Mac text no ["\n"], and in a Windows text ["\r"] and ["\n"] only come
    paired as ["\r\n"]. *)
Fixpoint crlf_paired (s : str) : bool :=
  match s with
  | [] => true
  | c :: s' =>
      if (c =? CR)%N then
        match s' with
        | c2 :: s'' => (c2 =? LF)%N && crlf_paired s''
        | [] => false
        end
      else negb (c =? LF)%N && crlf_paired s'
  end.

Definition follows (conv : newline_convention) (text : str) : bool :=
  match conv with
  | UnixLF => forallb (fun c => negb (c =? CR)%N) text
  | ClassicCR => forallb (fun c => negb (c =? LF)%N) text
  | WindowsCRLF => crlf_paired text
  end.

(** The pieces of [s] between the occurrences of ["\r\n"]. *)
Fixpoint split_crlf (s : str) : list str :=
  match s with
  | [] => [[]]
  | c :: s' =>
      match s' with
      | c2 :: s'' =>
          if (c =? CR)%N && (c2 =? LF)%N then [] :: split_crlf s''
          else cons_head c (split_crlf s')
      | [] => cons_head c (split_crlf s')
      end
  end.

(** What follows the last terminator is a line only when it is not
    empty. *)
Fixpoint drop_empty_tail (ps : list str) : list str :=
  match ps with
  | [] => []
  | [p] => if truthy p then [p] else []
  | p :: ps' => p :: drop_empty_tail ps'
  end.

(** The lines of [text] in the spec's words: the text cut at each line
    terminator of the convention, a last line without terminator
    included. *)
Definition spec_lines (conv : newline_convention) (text : str) : list str :=
  drop_empty_tail
    match conv with
    | UnixLF => split LF text
    | ClassicCR => split CR text
    | WindowsCRLF => split_crlf text
    end.

(** The number of lines in [t] when [sp] ends a line; [pending] tells
    that characters of an unfinished line were already seen. *)
Fixpoint count_lines_from (sp : char) (pending : bool) (t : str) : nat :=
  match t with
  | [] => if pending then 1 else 0
  | c :: t' =>
      if (c =? sp)%N then S (count_lines_from sp false t')
      else count_lines_from sp true t'
  end.

(** The label of a file: its base name without the extension
    (main.py:102-103). *)
Definition label_of (file_path : str) : str :=
  fst (splitext (basename file_path)).

(** [sub] occurs in [s]. *)
Definition contains (s sub : str) : Prop :=
  exists before after, s = before ++ sub ++ after.

(** The single-byte part of cp932, for the examples, as CPython's
    decoder reads it: bytes up to [0x80] are themselves, [0xA0] is
    U+F8F0, [0xA1..0xDF] are the half-width katakana and [0xFD..0xFF] are
    U+F8F1..U+F8F3. The other bytes, [0x81..0x9F] and [0xE0..0xFC], start
    a two-byte character; the codec raises when the byte after them is
    missing or outside [0x40..0x7E] and [0x80..0xFC], and so does this
    decoder. It also rejects the two-byte characters themselves, which
    need the JIS tables: on texts holding them it is no model of the
    codec, and the examples hold none. *)
Fixpoint cp932_single_bytes (bs : list N) : option str :=
  match bs with
  | [] => Some []
  | b :: r =>
      if (b <=? 0x80)%N then option_map (cons b) (cp932_single_bytes r)
      else if (b =? 0xA0)%N
      then option_map (cons 0xF8F0%N) (cp932_single_bytes r)
      else if between 0xA1 0xDF b
      then option_map (cons (0xFEC0 + b)%N) (cp932_single_bytes r)
      else if (0xFD <=? b)%N
      then option_map (cons (0xF8F1 - 0xFD + b)%N) (cp932_single_bytes r)
      else None
  end.

Definition cp932_single_byte_decode (b : bytes) : result str :=
  match cp932_single_bytes (map Byte.to_N b) with
  | Some s => Ok s
  | None => Raise (UnicodeDecodeError (lit "cp932"))
  end.

(** [str(e)] for the examples. *)
Definition example_str_of_exn (e : exn) : str :=
  match e with
  | OSError errno filename => lit "[Errno] '" ++ filename ++ lit "'"
  | UnicodeDecodeError encoding =>
      lit "'" ++ encoding ++ lit "' codec can't decode bytes"
  end.

(** A directory for the examples: [alice.txt] in UTF-8 with Windows line
    ends, [bob.txt] in cp932, an empty [dave.txt], [carol.txt] that no
    codec reads (a lead byte of cp932 before a line end), [erin.txt]
    that cannot be opened, and a file that is no export. *)
Definition example_fs : FileSystem :=
  mkFS
    (fun d =>
       if str_eqb d target_dir
       then [lit "alice.txt"; lit "bob.txt"; lit "carol.txt";
             lit "dave.txt"; lit "erin.txt"; lit "notes.md"]
       else [])
    (fun p =>
       if str_eqb p (lit "talk_upload/alice.txt")
       then Ok [x68; x69; x0d; x0a; x79; x6f; x0d; x0a; x21]
       else if str_eqb p (lit "talk_upload/bob.txt")
       then Ok [xb1; xb2; x0a; xb3; x0a]
       else if str_eqb p (lit "talk_upload/carol.txt")
       then Ok [x81; x0a]
       else if str_eqb p (lit "talk_upload/dave.txt")
       then Ok []
       else Raise (OSError 13 p)).


Definition example_window : Window :=
  mkWindow [(1, lit "old", 4)] (lit "alice") (mkChart [0] [4] [0] [lit "old"])
           [] [].

(** [file_path] cannot be read, with [e] the exception that reaches the
    outer handler: opening or reading it fails, or its content is neither
    UTF-8 nor cp932. *)
Definition unreadable (cp932_decode : bytes -> result str) (fs : FileSystem)
  (file_path : str) (e : exn) : Prop :=
  open_rb fs file_path = Raise e
  \/ exists raw encoding,
       open_rb fs file_path = Ok raw
       /\ utf8_decode raw = Raise (UnicodeDecodeError encoding)
       /\ cp932_decode raw = Raise e.

(** The content of [file_path] decodes to [text]: as UTF-8, or as cp932
    when it is no UTF-8. *)
Definition decodes_to (cp932_decode : bytes -> result str) (fs : FileSystem)
  (file_path : str) (text : str) : Prop :=
  exists raw,
    open_rb fs file_path = Ok raw
    /\ (utf8_decode raw = Ok text
        \/ (exists encoding,
               utf8_decode raw = Raise (UnicodeDecodeError encoding))
           /\ cp932_decode raw = Ok text).

(** The pieces of [s] when each of ["\r\n"], a lone ["\r"] and ["\n"]
    ends a line, whatever the convention. *)
Fixpoint split_universal (s : str) : list str :=
  match s with
  | [] => [[]]
  | c :: s' =>
      if (c =? CR)%N then
        match s' with
        | c2 :: s'' =>
            if (c2 =? LF)%N then [] :: split_universal s''
            else [] :: split_universal s'
        | [] => [] :: split_universal s'
        end
      else if (c =? LF)%N then [] :: split_universal s'
      else cons_head c (split_universal s')
  end.

(** The pieces of what follows a ["\r"]: a ["\n"] right after it belongs
    to the same line end. *)
Definition split_after_cr (s : str) : list str :=
  match s with
  | c :: s' => if (c =? LF)%N then split_universal s' else split_universal s
  | [] => split_universal s
  end.

(** The lines of a list of pieces, counted with and without a character
    pending before the first piece. *)
Definition counts_pieces (ps : list str) (n_idle n_pending : nat) : Prop :=
  ps <> []
  /\ length (drop_empty_tail ps) = n_idle
  /\ forall c, length (drop_empty_tail (cons_head c ps)) = n_pending.

(** [",".join(names)]: what a user types to exclude [names]. *)
Fixpoint join_comma (names : list str) : str :=
  match names with
  | [] => []
  | [n] => n
  | n :: rest => n ++ comma :: join_comma rest
  end.

(** A name as it can come out of the exclusion field: not empty, without
    comma and without white space around it. *)
Definition plain_name (n : str) : Prop :=
  n <> [] /\ strip n = n /\ ~ In comma n.

(** The text with every ["\n"] written as ["\r\n"], as it is saved on
    Windows. *)
Definition to_crlf (text : str) : str :=
  flat_map (fun c => if (c =? LF)%N then [CR; LF] else [c]) text.

(** The loop collects a record for [file_path]. *)
Definition readable (cp932_decode : bytes -> result str) (fs : FileSystem)
  (file_path : str) : bool :=
  match line_count_of cp932_decode fs file_path with
  | Ok _ => true
  | Raise _ => false
  end.

(** The number of lines [readlines] still finds in [s], [pendingcr]
    telling that a ["\r"] came just before and [pending] that the current
    line has characters already. *)
Definition lines_left (pendingcr pending : bool) (s : str) : nat :=
  count_lines_from LF pending (translate_newlines pendingcr s).

(** The white space that [str.strip] removes, as a table: the code
    points for which [str.isspace] holds. *)
Definition whitespace_chars : list char :=
  [0x09; 0x0A; 0x0B; 0x0C; 0x0D; 0x1C; 0x1D; 0x1E; 0x1F; 0x20; 0x85; 0xA0;
   0x1680; 0x2000; 0x2001; 0x2002; 0x2003; 0x2004; 0x2005; 0x2006; 0x2007;
   0x2008; 0x2009; 0x200A; 0x2028; 0x2029; 0x202F; 0x205F; 0x3000]%N.

Definition is_whitespace (w : str) : Prop :=
  Forall (fun c => In c whitespace_chars) w.

(** [piece] is one of the entries of [raw] that [sp] separates: it
    stands in [raw] between the start or a separator and a separator or
    the end, and holds no separator. *)
Definition separated_entry (sp : char) (raw piece : str) : Prop :=
  exists before after,
    raw = before ++ piece ++ after
    /\ ~ In sp piece
    /\ (before = [] \/ exists b, before = b ++ [sp])
    /\ (after = [] \/ exists a, after = sp :: a).

(** [t] is [piece] without the white space at its two ends: white space
    stands before and after [t] in [piece], and [t] neither starts nor
    ends with white space. *)
Definition trimmed_of (piece t : str) : Prop :=
  exists w1 w2,
    piece = w1 ++ t ++ w2
    /\ is_whitespace w1 /\ is_whitespace w2
    /\ (forall c t', t = c :: t' -> ~ In c whitespace_chars)
    /\ (forall c t', t = t' ++ [c] -> ~ In c whitespace_chars).

(** [t] is named by the exclusion text [raw]: it is a comma-separated
    entry of [raw], trimmed, and not empty. *)
Definition excluded_term (raw t : str) : Prop :=
  t <> []
  /\ exists piece, separated_entry comma raw piece /\ trimmed_of piece t.

(** A file whose text mixes line ends: ["a\rb\nc"]. *)
Definition example_fs_mixed : FileSystem :=
  mkFS (fun _ => [lit "mixed.txt"])
       (fun _ => Ok [x61; x0d; x62; x0a; x63]).

(** * Properties *)

(** ** The sort *)

Section ListSortFacts.
Variable A : Type.
Variable key : A -> nat.

Local Abbreviation ascending := (fun a b : A => key a <= key b).
Local Abbreviation descending := (fun a b : A => key b <= key a).

Lemma insert_asc_perm (x : A) (s : list A) :
  Permutation (x :: s) (insert_asc key x s).
Proof.
  induction s as [|y s IH]; simpl; [reflexivity|].
  destruct (key y <? key x); [|reflexivity].
  rewrite perm_swap. now constructor.
Qed.

Lemma sort_asc_perm (l : list A) : Permutation l (sort_asc key l).
Proof.
  induction l as [|x l IH]; simpl; [constructor|].
  rewrite <- insert_asc_perm. now constructor.
Qed.

Lemma insert_asc_sorted (x : A) (s : list A) :
  StronglySorted ascending s ->
  StronglySorted ascending (insert_asc key x s).
Proof.
  induction 1 as [|y s Hs IH Hy]; simpl.
  - repeat constructor.
  - destruct (Nat.ltb_spec (key y) (key x)) as [Hlt|Hge].
    + constructor; [exact IH|].
      rewrite <- insert_asc_perm. constructor; [lia|exact Hy].
    + constructor; [now constructor|].
      constructor; [exact Hge|].
      eapply Forall_impl; [|exact Hy].
      simpl; intros; lia.
Qed.

Lemma sort_asc_sorted (l : list A) : StronglySorted ascending (sort_asc key l).
Proof.
  induction l as [|x l IH]; simpl; [constructor|].
  now apply insert_asc_sorted.
Qed.

(** An element only passes elements of another key, so the elements of
    each key keep their order. *)
Lemma insert_asc_stable (c : nat) (x : A) (s : list A) :
  filter (fun a => key a =? c) (insert_asc key x s)
  = filter (fun a => key a =? c) (x :: s).
Proof.
  induction s as [|y s IH]; [reflexivity|].
  cbn [insert_asc].
  destruct (Nat.ltb_spec (key y) (key x)) as [Hlt|Hge]; [|reflexivity].
  cbn [filter] in *. rewrite IH.
  destruct (Nat.eqb_spec (key x) c), (Nat.eqb_spec (key y) c);
    try reflexivity; lia.
Qed.

Lemma sort_asc_stable (c : nat) (l : list A) :
  filter (fun a => key a =? c) (sort_asc key l)
  = filter (fun a => key a =? c) l.
Proof.
  induction l as [|x l IH]; [reflexivity|].
  cbn [sort_asc]. rewrite insert_asc_stable. cbn [filter]. now rewrite IH.
Qed.

(** Sorting an ascending list changes nothing. *)
Lemma sort_asc_fixpoint (s : list A) :
  StronglySorted ascending s -> sort_asc key s = s.
Proof.
  induction 1 as [|y s Hs IH Hy]; [reflexivity|].
  cbn [sort_asc]. rewrite IH.
  destruct s as [|z s]; [reflexivity|].
  cbn [insert_asc]. inversion Hy as [|? ? Hyz _]; subst.
  destruct (Nat.ltb_spec (key z) (key y)); [lia|].
  reflexivity.
Qed.

Lemma sorted_snoc (R : A -> A -> Prop) (l : list A) (x : A) :
  StronglySorted R l -> Forall (fun y => R y x) l ->
  StronglySorted R (l ++ [x]).
Proof.
  induction 1 as [|y l Hl IH Hy]; intros Hx; simpl.
  - repeat constructor.
  - inversion Hx; subst. constructor; [now apply IH|].
    apply Forall_app. split; [exact Hy|]. now repeat constructor.
Qed.

Lemma sorted_rev (R : A -> A -> Prop) (l : list A) :
  StronglySorted R l -> StronglySorted (fun a b => R b a) (rev l).
Proof.
  induction 1 as [|y l Hl IH Hy]; simpl; [constructor|].
  apply sorted_snoc; [exact IH|]. apply Forall_rev. exact Hy.
Qed.

Lemma list_sort_reverse_sorted (l : list A) :
  StronglySorted descending (list_sort key true l).
Proof.
  unfold list_sort.
  apply (sorted_rev (R := ascending)), sort_asc_sorted.
Qed.

Lemma list_sort_reverse_perm (l : list A) :
  Permutation l (list_sort key true l).
Proof.
  unfold list_sort.
  rewrite <- Permutation_rev, <- sort_asc_perm. apply Permutation_rev.
Qed.

Lemma list_sort_reverse_stable (c : nat) (l : list A) :
  filter (fun a => key a =? c) (list_sort key true l)
  = filter (fun a => key a =? c) l.
Proof.
  unfold list_sort.
  rewrite filter_rev, sort_asc_stable, filter_rev. apply rev_involutive.
Qed.

Lemma list_sort_reverse_fixpoint (l : list A) :
  StronglySorted descending l -> list_sort key true l = l.
Proof.
  intros Hl. unfold list_sort.
  rewrite sort_asc_fixpoint; [apply rev_involutive|].
  exact (sorted_rev Hl).
Qed.
End ListSortFacts.

Lemma rank_perm (data : list Record_) : Permutation data (rank data).
Proof. apply list_sort_reverse_perm. Qed.

Lemma rank_sorted (data : list Record_) : count_nonincreasing (rank data).
Proof. apply list_sort_reverse_sorted. Qed.

Lemma rank_stable (c : nat) (data : list Record_) :
  with_count c (rank data) = with_count c data.
Proof. apply list_sort_reverse_stable. Qed.

Lemma rank_length (data : list Record_) : length (rank data) = length data.
Proof. symmetry. apply Permutation_length, rank_perm. Qed.

(** C1: [rank] returns a list of the same length (a rearrangement of its
    input), sorted by count non-increasing, and it is stable: for every
    count, the records with that count come in the same order in the
    output as in the input. *)
Theorem rank_sorted_stable (data : list Record_) :
  length (rank data) = length data
  /\ Permutation data (rank data)
  /\ count_nonincreasing (rank data)
  /\ forall c, with_count c (rank data) = with_count c data.
Proof.
  unfold rank, count_nonincreasing, with_count.
  pose proof (list_sort_reverse_perm count data) as Hp.
  repeat split.
  - symmetry. now apply Permutation_length.
  - exact Hp.
  - apply list_sort_reverse_sorted.
  - intros c. apply list_sort_reverse_stable.
Qed.

Lemma rank_of_ranked (ranked : list Record_) :
  count_nonincreasing ranked -> rank ranked = ranked.
Proof. apply list_sort_reverse_fixpoint. Qed.

(** C7: [rank] is idempotent: ranking a ranked series gives it back. *)
Theorem rank_idempotent (data : list Record_) :
  rank (rank data) = rank data.
Proof.
  apply rank_of_ranked. unfold rank, count_nonincreasing.
  apply list_sort_reverse_sorted.
Qed.

(** ** Trimming and splitting *)

Lemma isspace_not_comma (c : char) : isspace c = true -> c <> comma.
Proof. intros H ->. vm_compute in H. discriminate. Qed.

Lemma blank_no_comma (w : str) : blank w -> ~ In comma w.
Proof.
  intros Hw Hin. unfold blank in Hw. rewrite Forall_forall in Hw.
  exact (isspace_not_comma (Hw _ Hin) eq_refl).
Qed.

Lemma lstrip_blank_app (w s : str) : blank w -> lstrip (w ++ s) = lstrip s.
Proof.
  induction 1 as [|c w Hc Hw IH]; [reflexivity|].
  simpl. now rewrite Hc.
Qed.

Lemma rstrip_app_blank (s w : str) : blank w -> rstrip (s ++ w) = rstrip s.
Proof.
  intros Hw. unfold rstrip. rewrite rev_app_distr, lstrip_blank_app; [reflexivity|].
  now apply Forall_rev.
Qed.

(** What [lstrip] removes is white space. *)
Lemma lstrip_decomp (s : str) : exists w, blank w /\ s = w ++ lstrip s.
Proof.
  induction s as [|c s (w & Hw & IH)].
  - exists []. split; [constructor|reflexivity].
  - simpl. destruct (isspace c) eqn:Hc.
    + exists (c :: w). split; [now constructor|]. simpl. now f_equal.
    + exists []. split; [constructor|reflexivity].
Qed.

Lemma rstrip_decomp (s : str) : exists w, blank w /\ s = rstrip s ++ w.
Proof.
  destruct (lstrip_decomp (rev s)) as (w & Hw & E).
  exists (rev w). split; [now apply Forall_rev|].
  unfold rstrip. rewrite <- rev_app_distr, <- E. symmetry. apply rev_involutive.
Qed.

Lemma strip_decomp (s : str) :
  exists w1 w2, blank w1 /\ blank w2 /\ s = w1 ++ strip s ++ w2.
Proof.
  destruct (lstrip_decomp s) as (w1 & H1 & E1).
  destruct (rstrip_decomp (lstrip s)) as (w2 & H2 & E2).
  exists w1, w2. repeat split; try assumption.
  unfold strip. now rewrite <- E2.
Qed.

Lemma lstrip_app_blank (s w : str) :
  blank w -> exists w', blank w' /\ lstrip (s ++ w) = lstrip s ++ w'.
Proof.
  intros Hw. induction s as [|c s IH]; simpl.
  - exists []. split; [constructor|].
    rewrite <- (app_nil_r w). now rewrite lstrip_blank_app.
  - destruct (isspace c); [exact IH|]. now exists w.
Qed.

Lemma strip_blank_app (w s : str) : blank w -> strip (w ++ s) = strip s.
Proof. intros Hw. unfold strip. now rewrite lstrip_blank_app. Qed.

Lemma strip_app_blank (s w : str) : blank w -> strip (s ++ w) = strip s.
Proof.
  intros Hw. unfold strip.
  destruct (lstrip_app_blank s Hw) as (w' & Hw' & ->).
  now apply rstrip_app_blank.
Qed.

Lemma strip_In (c : char) (s : str) : In c (strip s) -> In c s.
Proof.
  destruct (strip_decomp s) as (w1 & w2 & _ & _ & E). intros Hin.
  rewrite E. apply in_or_app. right. apply in_or_app. now left.
Qed.

Lemma split_not_nil (sp : char) (s : str) : split sp s <> [].
Proof.
  destruct s as [|c s]; simpl; [discriminate|].
  destruct (c =? sp)%N; [discriminate|].
  destruct (split sp s); discriminate.
Qed.

(** No piece of a split holds the separator. *)
Lemma split_no_sep (sp : char) (s p : str) :
  In p (split sp s) -> ~ In sp p.
Proof.
  revert p. induction s as [|c s IH]; simpl; intros p Hp.
  - destruct Hp as [<-|[]]. intros [].
  - destruct (N.eqb_spec c sp) as [->|Hne].
    + destruct Hp as [<-|Hp]; [intros []|now apply IH].
    + destruct (split sp s) as [|q qs]; simpl in Hp.
      * destruct Hp as [<-|[]]. intros [E|[]]. now apply Hne.
      * destruct Hp as [<-|Hp].
        -- intros [E|Hin]; [now apply Hne|]. apply (IH q); [now left|exact Hin].
        -- apply IH. now right.
Qed.

Lemma split_without_sep (sp : char) (s : str) :
  ~ In sp s -> split sp s = [s].
Proof.
  induction s as [|c s IH]; [reflexivity|]. intros Hn. simpl.
  destruct (N.eqb_spec c sp) as [->|_]; [exfalso; apply Hn; now left|].
  rewrite IH; [reflexivity|]. intros Hin. apply Hn. now right.
Qed.

Lemma split_app_last (sp : char) (s w : str) :
  ~ In sp w -> split sp (s ++ w) = app_last w (split sp s).
Proof.
  intros Hw. induction s as [|c s IH]; simpl.
  - now apply split_without_sep.
  - rewrite IH. pose proof (split_not_nil sp s) as Hne.
    destruct (c =? sp)%N.
    + destruct (split sp s); [contradiction|reflexivity].
    + destruct (split sp s) as [|p [|q qs]]; [contradiction|reflexivity..].
Qed.

Lemma split_app_first (sp : char) (w s : str) :
  ~ In sp w -> split sp (w ++ s) = app_first w (split sp s).
Proof.
  induction w as [|c w IH]; intros Hw; simpl.
  - now destruct (split sp s).
  - destruct (N.eqb_spec c sp) as [->|_]; [exfalso; apply Hw; now left|].
    rewrite IH; [|intros Hin; apply Hw; now right].
    pose proof (split_not_nil sp s). now destruct (split sp s).
Qed.

Lemma map_strip_app_last (w : str) (ps : list str) :
  blank w -> map strip (app_last w ps) = map strip ps.
Proof.
  intros Hw. induction ps as [|p [|q qs] IH]; [reflexivity| |].
  - simpl. now rewrite strip_app_blank.
  - change (app_last w (p :: q :: qs)) with (p :: app_last w (q :: qs)).
    cbn [map]. now rewrite IH.
Qed.

Lemma map_strip_app_first (w : str) (ps : list str) :
  blank w -> map strip (app_first w ps) = map strip ps.
Proof.
  intros Hw. destruct ps as [|p ps]; [reflexivity|].
  simpl. now rewrite strip_blank_app.
Qed.

(** Trimming the whole string first does not change the trimmed pieces. *)
Lemma map_strip_split_strip (raw : str) :
  map strip (split comma (strip raw)) = map strip (split comma raw).
Proof.
  destruct (strip_decomp raw) as (w1 & w2 & H1 & H2 & E).
  rewrite E at 2.
  rewrite split_app_first by now apply blank_no_comma.
  rewrite map_strip_app_first by assumption.
  rewrite split_app_last by now apply blank_no_comma.
  now rewrite map_strip_app_last.
Qed.

Lemma map_filter_comm (A B : Type) (f : A -> B) (p : B -> bool)
  (l : list A) :
  map f (filter (fun x => p (f x)) l) = filter p (map f l).
Proof.
  induction l as [|x l IH]; [reflexivity|].
  simpl. destruct (p (f x)); simpl; now rewrite IH.
Qed.

(** The list built at main.py:148 is the exclusion set of the spec. *)
Lemma exclude_names_spec (raw : str) :
  exclude_names raw = spec_excluded_terms raw.
Proof.
  unfold exclude_names, spec_excluded_terms.
  rewrite <- (map_strip_split_strip raw).
  destruct (strip raw) as [|c t] eqn:E; [reflexivity|].
  cbn [truthy]. apply map_filter_comm.
Qed.

Lemma split_In_chars (sp c : char) (s p : str) :
  In p (split sp s) -> In c p -> In c s.
Proof.
  revert p. induction s as [|x s IH]; simpl; intros p Hp Hc.
  - destruct Hp as [<-|[]]. destruct Hc.
  - destruct (x =? sp)%N.
    + destruct Hp as [<-|Hp]; [destruct Hc|]. right. eapply IH; eassumption.
    + destruct (split sp s) as [|q qs]; simpl in Hp.
      * destruct Hp as [<-|[]]. destruct Hc as [<-|[]]. now left.
      * destruct Hp as [<-|Hp].
        -- destruct Hc as [<-|Hc]; [now left|right].
           apply (IH q); [now left|exact Hc].
        -- right. apply (IH p); [now right|exact Hc].
Qed.

Lemma strip_blank (w : str) : blank w -> strip w = [].
Proof.
  intros Hw. rewrite <- (app_nil_r w). now rewrite strip_blank_app.
Qed.

Lemma split_app_sep (sp : char) (p rest : str) :
  ~ In sp p -> split sp (p ++ sp :: rest) = p :: split sp rest.
Proof.
  induction p as [|c p IH]; intros Hp; simpl.
  - now rewrite N.eqb_refl.
  - destruct (N.eqb_spec c sp) as [->|_]; [exfalso; apply Hp; now left|].
    rewrite IH; [reflexivity|]. intros H. apply Hp. now right.
Qed.

Lemma lstrip_head (s t : str) (c : char) :
  lstrip s = c :: t -> isspace c = false.
Proof.
  induction s as [|x s IH]; simpl; [discriminate|].
  destruct (isspace x) eqn:E; [exact IH|]. now intros [= <- _].
Qed.

Lemma lstrip_fixed (c : char) (t : str) :
  isspace c = false -> lstrip (c :: t) = c :: t.
Proof. intros H. simpl. now rewrite H. Qed.

Lemma lstrip_idempotent (s : str) : lstrip (lstrip s) = lstrip s.
Proof.
  destruct (lstrip s) as [|c t] eqn:E; [reflexivity|].
  apply lstrip_fixed. exact (lstrip_head _ E).
Qed.

Lemma rstrip_idempotent (s : str) : rstrip (rstrip s) = rstrip s.
Proof.
  unfold rstrip. now rewrite rev_involutive, lstrip_idempotent.
Qed.

(** [rstrip] leaves the first character of what it keeps in place. *)
Lemma lstrip_rstrip_lstrip (s : str) :
  lstrip (rstrip (lstrip s)) = rstrip (lstrip s).
Proof.
  destruct (rstrip_decomp (lstrip s)) as (w & _ & E).
  destruct (rstrip (lstrip s)) as [|c t] eqn:Er; [reflexivity|].
  apply lstrip_fixed. simpl in E. exact (lstrip_head _ E).
Qed.

Lemma strip_idempotent (s : str) : strip (strip s) = strip s.
Proof.
  unfold strip. now rewrite lstrip_rstrip_lstrip, rstrip_idempotent.
Qed.

Lemma strip_ends (s : str) :
  strip s <> [] ->
  isspace (hd 0%N (strip s)) = false /\ isspace (last (strip s) 0%N) = false.
Proof.
  intros Hne. split.
  - pose proof (lstrip_rstrip_lstrip s) as H. fold (strip s) in H.
    destruct (strip s) as [|c t]; [contradiction|].
    simpl. exact (lstrip_head _ H).
  - unfold strip, rstrip in *.
    destruct (lstrip (rev (lstrip s))) as [|c t] eqn:E; [contradiction|].
    simpl. rewrite last_last. exact (lstrip_head _ E).
Qed.

(** ** The exclusion text, read without [split] and [strip] *)

(** [isspace] holds on the code points of the table, and on no other. *)
Lemma isspace_spec (c : char) : isspace c = true <-> In c whitespace_chars.
Proof.
  split.
  - unfold isspace. intros H.
    repeat (apply orb_prop in H; destruct H as [H|H]);
      repeat match goal with
             | H : (_ && _)%bool = true |- _ => apply andb_prop in H as [? ?]
             | H : (_ <=? _)%N = true |- _ => apply N.leb_le in H
             | H : (_ =? _)%N = true |- _ => apply N.eqb_eq in H
             end;
      unfold whitespace_chars; cbn [In]; lia.
  - unfold whitespace_chars. cbn [In]. intros H.
    repeat (destruct H as [<-|H]; [reflexivity|]). destruct H.
Qed.

Lemma blank_is_whitespace (w : str) : blank w <-> is_whitespace w.
Proof.
  unfold blank, is_whitespace. rewrite !Forall_forall.
  split; intros H c Hc; apply isspace_spec; now apply H.
Qed.

(** The first piece of a split and what is split after it. *)
Lemma split_first (sp : char) (s : str) :
  exists p,
    ~ In sp p
    /\ ((s = p /\ split sp s = [p])
        \/ exists rest, s = p ++ sp :: rest
                        /\ split sp s = p :: split sp rest).
Proof.
  induction s as [|c s (p & Hp & IH)].
  - exists []. split; [intros []|]. now left.
  - cbn [split]. destruct (N.eqb_spec c sp) as [->|Hc].
    + exists []. split; [intros []|]. right. now exists s.
    + exists (c :: p). split.
      { intros [H|H]; [now apply Hc|now apply Hp]. }
      destruct IH as [[-> E]|(rest & -> & E)]; rewrite E.
      * now left.
      * right. now exists rest.
Qed.

(** A split at a separator splits both sides. *)
Lemma split_app_at_sep (sp : char) (a t : str) :
  split sp (a ++ sp :: t) = split sp a ++ split sp t.
Proof.
  induction a as [|c a IH]; cbn [app split].
  - now rewrite N.eqb_refl.
  - rewrite IH. destruct (c =? sp)%N; [reflexivity|].
    pose proof (split_not_nil sp a). now destruct (split sp a).
Qed.

Lemma split_entry_sound (sp : char) (n : nat) :
  forall s piece, length s <= n ->
  In piece (split sp s) -> separated_entry sp s piece.
Proof.
  induction n as [|n IH]; intros s piece Hlen Hin.
  - destruct s; [|simpl in Hlen; lia]. destruct Hin as [<-|[]].
    exists [], []. repeat split; auto.
  - destruct (split_first sp s) as (p & Hp & [[-> E]|(rest & -> & E)]);
      rewrite E in Hin.
    + destruct Hin as [<-|[]]. exists [], [].
      rewrite app_nil_r. repeat split; auto.
    + destruct Hin as [<-|Hin].
      * exists [], (sp :: rest). repeat split; auto. right. now exists rest.
      * destruct (IH rest piece) as (b & a & -> & Hn & Hb & Ha).
        { rewrite length_app in Hlen. simpl in Hlen. lia. }
        { exact Hin. }
        exists (p ++ sp :: b), a. repeat split; auto.
        -- now rewrite <- app_assoc.
        -- right. destruct Hb as [->|(b' & ->)].
           ++ now exists p.
           ++ exists (p ++ sp :: b'). now rewrite <- app_assoc.
Qed.

Lemma split_entry_complete (sp : char) (s piece : str) :
  separated_entry sp s piece -> In piece (split sp s).
Proof.
  intros (before & after & -> & Hn & Hb & Ha).
  assert (Hhead : In piece (split sp (piece ++ after))).
  { destruct Ha as [->|(a & ->)].
    - rewrite app_nil_r, (@split_without_sep sp piece Hn). now left.
    - rewrite (@split_app_sep sp piece a Hn). now left. }
  destruct Hb as [->|(b & ->)]; [exact Hhead|].
  rewrite <- app_assoc. cbn [app]. rewrite split_app_at_sep.
  apply in_or_app. now right.
Qed.

(** The pieces of [split] are the separated entries. *)
Lemma split_entry (sp : char) (s piece : str) :
  In piece (split sp s) <-> separated_entry sp s piece.
Proof.
  split; [apply (@split_entry_sound sp (length s)); lia
         |apply split_entry_complete].
Qed.

Lemma strip_fixed (t : str) :
  (forall c t', t = c :: t' -> isspace c = false) ->
  (forall c t', t = t' ++ [c] -> isspace c = false) ->
  strip t = t.
Proof.
  intros Hfirst Hlast. unfold strip.
  assert (Hl : lstrip t = t).
  { destruct t as [|c t']; [reflexivity|].
    apply lstrip_fixed. now apply (Hfirst c t'). }
  rewrite Hl. unfold rstrip.
  destruct (rev t) as [|x r] eqn:E.
  - apply (f_equal (@rev char)) in E. rewrite rev_involutive in E.
    now rewrite E.
  - assert (Et : t = rev r ++ [x]).
    { apply (f_equal (@rev char)) in E. now rewrite rev_involutive in E. }
    rewrite lstrip_fixed by now apply (Hlast x (rev r)).
    now rewrite Et.
Qed.

(** [strip] gives the text without the white space at its ends, and
    nothing else does. *)
Lemma strip_trimmed (piece t : str) :
  t = strip piece <-> trimmed_of piece t.
Proof.
  split.
  - intros ->. destruct (strip_decomp piece) as (w1 & w2 & H1 & H2 & E).
    exists w1, w2. split; [exact E|].
    split; [now apply blank_is_whitespace|].
    split; [now apply blank_is_whitespace|].
    split; intros c t' Et Hc; apply isspace_spec in Hc;
      assert (Hne : strip piece <> []) by
        (rewrite Et; try discriminate; now destruct t');
      destruct (strip_ends piece Hne) as [Hh Hl]; rewrite Et in Hh, Hl.
    + simpl in Hh. congruence.
    + rewrite last_last in Hl. congruence.
  - intros (w1 & w2 & -> & H1 & H2 & Hfirst & Hlast).
    apply blank_is_whitespace in H1, H2.
    rewrite strip_blank_app, strip_app_blank by assumption.
    symmetry. apply strip_fixed; intros c t' Et.
    + specialize (Hfirst c t' Et). destruct (isspace c) eqn:E; [|reflexivity].
      exfalso. apply Hfirst. now apply isspace_spec.
    + specialize (Hlast c t' Et). destruct (isspace c) eqn:E; [|reflexivity].
      exfalso. apply Hlast. now apply isspace_spec.
Qed.

(** ** The exclusion filter *)

Lemma str_eqb_eq (a b : str) : str_eqb a b = true <-> a = b.
Proof.
  unfold str_eqb. destruct (str_eq_dec a b); split; congruence.
Qed.

Lemma str_in_In (x : str) (names : list str) :
  str_in x names = true <-> In x names.
Proof.
  unfold str_in. rewrite existsb_exists. split.
  - intros (y & Hy & E). apply str_eqb_eq in E. now subst.
  - intros H. exists x. split; [exact H|]. now apply str_eqb_eq.
Qed.

Lemma spec_excluded_terms_In (raw t : str) :
  In t (spec_excluded_terms raw)
  <-> t <> [] /\ exists piece, In piece (split comma raw) /\ t = strip piece.
Proof.
  unfold spec_excluded_terms. rewrite filter_In, in_map_iff. split.
  - intros [(piece & E & Hp) Ht]. split; [now destruct t|].
    exists piece. now split.
  - intros [Ht (piece & Hp & E)]. split; [|now destruct t].
    exists piece. now split.
Qed.

Lemma filtered_data_spec (ranked : list Record_) (raw : str) :
  filtered_data ranked raw = spec_kept (spec_excluded_terms raw) ranked.
Proof.
  unfold filtered_data, spec_kept. rewrite exclude_names_spec.
  apply filter_ext. intros d.
  destruct (in_dec str_eq_dec (name d) (spec_excluded_terms raw)) as [Hin|Hn].
  - apply str_in_In in Hin. now rewrite Hin.
  - destruct (str_in (name d) (spec_excluded_terms raw)) eqn:E; [|reflexivity].
    apply str_in_In in E. contradiction.
Qed.

Lemma spec_kept_In (terms : list str) (ranked : list Record_) (d : Record_) :
  In d (spec_kept terms ranked) <-> In d ranked /\ ~ In (name d) terms.
Proof.
  unfold spec_kept. rewrite filter_In.
  destruct (in_dec str_eq_dec (name d) terms); intuition discriminate.
Qed.

(** The names taken from the exclusion field are the terms that the
    text names. *)
Lemma exclude_names_excluded_term (raw t : str) :
  In t (exclude_names raw) <-> excluded_term raw t.
Proof.
  rewrite exclude_names_spec, spec_excluded_terms_In. unfold excluded_term.
  split; intros (Hne & piece & Hp & Ht); (split; [exact Hne|]);
    exists piece; split.
  - now apply split_entry.
  - now apply strip_trimmed.
  - now apply split_entry.
  - now apply strip_trimmed.
Qed.

(** C2: the names taken from the exclusion field are the trimmed,
    non-empty comma-separated entries of the raw string: the texts that
    stand between commas (or the ends) of the string, without the white
    space at their ends, the empty ones left out. The records kept for
    the chart are exactly those of the ranked input whose label is none
    of these names, in the same order, so no label of the chart is one of
    them and all records bearing an excluded label are gone. With
    [alice] excluded only [bob] is left, and with [alice, bob] nobody. *)
Theorem to_chart_series_excludes (ranked : list Record_) (excluded_raw : str) :
  let terms := spec_excluded_terms excluded_raw in
  let kept := spec_kept terms ranked in
  (forall t, In t (exclude_names excluded_raw) <->
     excluded_term excluded_raw t)
  /\ (forall d, In d (filtered_data ranked excluded_raw) <->
        In d ranked /\ ~ excluded_term excluded_raw (name d))
  /\ (forall keep : Record_ -> bool,
        (forall d, keep d = true <-> ~ excluded_term excluded_raw (name d)) ->
        filtered_data ranked excluded_raw = filter keep ranked
        /\ to_chart_series ranked excluded_raw
           = (rev (map name (filter keep ranked)),
              rev (map count (filter keep ranked))))
  /\ (forall label, In label (fst (to_chart_series ranked excluded_raw)) ->
        ~ excluded_term excluded_raw label)
  /\ to_chart_series [mkRecord (lit "bob") 10; mkRecord (lit "alice") 3]
                     (lit "alice")
     = ([lit "bob"], [10])
  /\ to_chart_series [mkRecord (lit "bob") 10; mkRecord (lit "alice") 3]
                     (lit "alice, bob")
     = ([], [])
  /\ exclude_names excluded_raw = terms
  /\ (forall t, In t terms <->
        t <> [] /\
        exists piece, In piece (split comma excluded_raw) /\ t = strip piece)
  /\ filtered_data ranked excluded_raw = kept
  /\ (forall d, In d (filtered_data ranked excluded_raw) <->
        In d ranked /\ ~ In (name d) terms)
  /\ to_chart_series ranked excluded_raw
     = (rev (map name kept), rev (map count kept))
  /\ (forall label, In label (fst (to_chart_series ranked excluded_raw)) ->
        ~ In label terms).
Proof.
  intros terms kept.
  pose proof (filtered_data_spec ranked excluded_raw) as Hf.
  fold terms in Hf. fold kept in Hf.
  assert (Hs : to_chart_series ranked excluded_raw
               = (rev (map name kept), rev (map count kept))).
  { unfold to_chart_series, draw_chart. cbn [yticklabels bar_width].
    now rewrite Hf. }
  assert (Ht : forall t, In t terms <-> excluded_term excluded_raw t).
  { intros t. unfold terms. rewrite <- exclude_names_spec.
    apply exclude_names_excluded_term. }
  assert (Hd : forall d, In d (filtered_data ranked excluded_raw) <->
                 In d ranked /\ ~ In (name d) terms).
  { intros d. rewrite Hf. apply spec_kept_In. }
  assert (Hl : forall label,
             In label (fst (to_chart_series ranked excluded_raw)) ->
             ~ In label terms).
  { intros label. rewrite Hs. cbn [fst]. rewrite <- in_rev, in_map_iff.
    intros (d & <- & Hin). now apply spec_kept_In in Hin. }
  split; [apply exclude_names_excluded_term|].
  split; [intros d; rewrite Hd, Ht; reflexivity|].
  split.
  { intros keep Hkeep.
    assert (E : kept = filter keep ranked).
    { unfold kept, spec_kept. apply filter_ext. intros d.
      destruct (in_dec str_eq_dec (name d) terms) as [Hin|Hn].
      - destruct (keep d) eqn:Ek; [|reflexivity].
        apply Hkeep in Ek. exfalso. apply Ek. now apply Ht.
      - destruct (keep d) eqn:Ek; [reflexivity|].
        assert (Hk : keep d = true)
          by (apply Hkeep; intros H; apply Hn; now apply Ht).
        congruence. }
    rewrite <- E. now split. }
  split; [intros label Hin H; apply (Hl label Hin); now apply Ht|].
  split; [reflexivity|]. split; [reflexivity|].
  split; [apply exclude_names_spec|].
  split; [intros t; apply spec_excluded_terms_In|].
  split; [exact Hf|]. split; [exact Hd|]. split; [exact Hs|exact Hl].
Qed.

Lemma exclude_names_empty : exclude_names [] = [].
Proof. reflexivity. Qed.

Lemma filter_keeps_all (A : Type) (f : A -> bool) (l : list A) :
  (forall x, f x = true) -> filter f l = l.
Proof.
  intros Hf. induction l as [|x l IH]; [reflexivity|].
  simpl. now rewrite Hf, IH.
Qed.

Lemma filtered_data_empty_exclusion (data : list Record_) :
  filtered_data data [] = data.
Proof.
  unfold filtered_data. rewrite exclude_names_empty.
  now apply filter_keeps_all.
Qed.

(** C3: with an empty exclusion string the chart series is the ranked
    input reversed, labels and counts alike. *)
Theorem to_chart_series_empty_exclusion (ranked : list Record_) :
  to_chart_series ranked []
  = (map name (rev ranked), map count (rev ranked)).
Proof.
  unfold to_chart_series, draw_chart.
  rewrite filtered_data_empty_exclusion.
  cbn [yticklabels bar_width]. now rewrite !map_rev.
Qed.

Lemma combine_maps (A B C : Type) (f : A -> B) (g : A -> C) (l : list A) :
  combine (map f l) (map g l) = map (fun x => (f x, g x)) l.
Proof.
  induction l as [|x l IH]; [reflexivity|]. simpl. now rewrite IH.
Qed.

Lemma exclude_names_no_comma (raw t : str) :
  In t (exclude_names raw) -> ~ In comma t.
Proof.
  rewrite exclude_names_spec, spec_excluded_terms_In.
  intros (_ & piece & Hp & ->) Hin.
  apply strip_In in Hin. exact (split_no_sep _ _ _ Hp Hin).
Qed.

(** C10: no name taken from the exclusion field holds a comma, so a
    record whose label holds one passes the filter whatever the exclusion
    string is, and its label and count stand side by side in the chart
    series. *)
Theorem comma_label_never_excluded
  (ranked : list Record_) (excluded_raw : str) (d : Record_) :
  In d ranked ->
  In comma (name d) ->
  (forall t, In t (exclude_names excluded_raw) -> ~ In comma t)
  /\ In d (filtered_data ranked excluded_raw)
  /\ In (name d, count d)
        (combine (fst (to_chart_series ranked excluded_raw))
                 (snd (to_chart_series ranked excluded_raw))).
Proof.
  intros Hd Hc.
  assert (Hk : In d (filtered_data ranked excluded_raw)).
  { unfold filtered_data. apply filter_In. split; [exact Hd|].
    destruct (str_in (name d) (exclude_names excluded_raw)) eqn:E;
      [|reflexivity].
    apply str_in_In in E. now apply exclude_names_no_comma in E. }
  split; [intros t; apply exclude_names_no_comma|].
  split; [exact Hk|].
  unfold to_chart_series, draw_chart. cbn [yticklabels bar_width fst snd].
  rewrite <- !map_rev, combine_maps, in_map_iff.
  exists d. split; [reflexivity|]. now apply -> in_rev.
Qed.

(** Example for C10: the label [a,b] with the exclusion string [a,b]. *)
Lemma comma_label_never_excluded_witness :
  let d := mkRecord (lit "a,b") 7 in
  In d [d] /\ In comma (name d) /\ In d (filtered_data [d] (lit "a,b")).
Proof.
  intros d.
  assert (H1 : In d [d]) by (left; reflexivity).
  assert (H2 : In comma (name d)) by (right; left; reflexivity).
  split; [exact H1|]. split; [exact H2|].
  apply (comma_label_never_excluded [d] (lit "a,b") d H1 H2).
Defined.

(** ** Counting lines *)

Lemma readlines_from_count (cur t : str) :
  length (readlines_from cur t) = count_lines_from LF (truthy cur) t.
Proof.
  revert cur. induction t as [|c t IH]; intros cur; simpl.
  - now destruct cur.
  - destruct (c =? LF)%N; simpl; now rewrite IH.
Qed.

Lemma drop_empty_tail_cons (p : str) (ps : list str) :
  ps <> [] -> drop_empty_tail (p :: ps) = p :: drop_empty_tail ps.
Proof. now destruct ps. Qed.

(** One more character at the head of a piece that is not empty changes
    no count. *)
Lemma drop_empty_tail_cons_head (c x : char) (p : str) (ps : list str) :
  length (drop_empty_tail (cons_head c ((x :: p) :: ps)))
  = length (drop_empty_tail ((x :: p) :: ps)).
Proof. now destruct ps. Qed.

Lemma cons_head_shape (c : char) (ps : list str) :
  exists p ps', cons_head c ps = (c :: p) :: ps'.
Proof. destruct ps as [|p ps']; simpl; eauto. Qed.

Lemma counts_pieces_nil : counts_pieces [[]] 0 1.
Proof. repeat split; discriminate. Qed.

Lemma counts_pieces_terminator (ps : list str) (n m : nat) :
  counts_pieces ps n m -> counts_pieces ([] :: ps) (S n) (S n).
Proof.
  intros (Hne & Hn & _). split; [discriminate|].
  split; [|intros c; cbn [cons_head]];
    rewrite drop_empty_tail_cons by assumption; simpl; now rewrite Hn.
Qed.

Lemma counts_pieces_char (x : char) (ps : list str) (n m : nat) :
  counts_pieces ps n m -> counts_pieces (cons_head x ps) m m.
Proof.
  intros (Hne & _ & Hm).
  destruct (cons_head_shape x ps) as (p & ps' & E).
  split; [rewrite E; discriminate|].
  split; [apply Hm|].
  intros c. rewrite E, drop_empty_tail_cons_head, <- E. apply Hm.
Qed.

Lemma split_counts (sp : char) (s : str) :
  counts_pieces (split sp s) (count_lines_from sp false s)
                (count_lines_from sp true s).
Proof.
  induction s as [|x s IH]; [apply counts_pieces_nil|].
  simpl. destruct (x =? sp)%N.
  - eapply counts_pieces_terminator, IH.
  - eapply counts_pieces_char, IH.
Qed.

Lemma translate_newlines_unix (s : str) :
  follows UnixLF s = true -> translate_newlines false s = s.
Proof.
  induction s as [|c s IH]; [reflexivity|].
  intros H. cbn [follows forallb] in H. apply andb_prop in H as [Hc Hs].
  apply negb_true_iff in Hc. cbn [translate_newlines]. rewrite Hc.
  destruct (N.eqb_spec c LF) as [->|_]; now rewrite (IH Hs).
Qed.

Lemma translate_newlines_classic (pendingcr b : bool) (s : str) :
  follows ClassicCR s = true ->
  count_lines_from LF b (translate_newlines pendingcr s)
  = count_lines_from CR b s.
Proof.
  revert pendingcr b. induction s as [|c s IH]; intros pendingcr b H;
    [reflexivity|].
  simpl in H. apply andb_prop in H as [Hc Hs]. apply negb_true_iff in Hc.
  simpl. destruct (c =? CR)%N.
  - simpl. now rewrite IH.
  - rewrite Hc. simpl. rewrite Hc. now apply IH.
Qed.

Lemma split_crlf_cons (x : char) (s : str) :
  (x =? CR)%N = false -> split_crlf (x :: s) = cons_head x (split_crlf s).
Proof. intros Hx. simpl. rewrite Hx. now destruct s. Qed.

(** Induction along a text with paired line ends. *)
Lemma crlf_paired_ind (P : str -> Prop) :
  P [] ->
  (forall s, crlf_paired s = true -> P s -> P (CR :: LF :: s)) ->
  (forall c s, (c =? CR)%N = false -> (c =? LF)%N = false ->
               crlf_paired s = true -> P s -> P (c :: s)) ->
  forall s, crlf_paired s = true -> P s.
Proof.
  intros Hnil Hpair Hchar.
  assert (H : forall n s, length s <= n -> crlf_paired s = true -> P s).
  { induction n as [|n IH]; intros s Hlen Hs.
    - destruct s; [exact Hnil|simpl in Hlen; lia].
    - destruct s as [|c s]; [exact Hnil|].
      simpl in Hlen, Hs. destruct (N.eqb_spec c CR) as [->|Hc].
      + destruct s as [|c2 s]; [discriminate|].
        apply andb_prop in Hs as [H2 Hs]. apply N.eqb_eq in H2. subst c2.
        apply Hpair; [exact Hs|]. apply IH; [simpl in Hlen; lia|exact Hs].
      + apply andb_prop in Hs as [H2 Hs]. apply negb_true_iff in H2.
        apply Hchar; try assumption; [now apply N.eqb_neq|].
        apply IH; [lia|exact Hs]. }
  intros s. now apply (H (length s)).
Qed.

Lemma split_crlf_counts (s : str) :
  follows WindowsCRLF s = true ->
  counts_pieces (split_crlf s)
                (count_lines_from LF false (translate_newlines false s))
                (count_lines_from LF true (translate_newlines false s)).
Proof.
  simpl. revert s. apply crlf_paired_ind.
  - apply counts_pieces_nil.
  - intros s _ IH. change (split_crlf (CR :: LF :: s)) with ([] :: split_crlf s).
    change (translate_newlines false (CR :: LF :: s))
      with (LF :: translate_newlines false s).
    simpl. eapply counts_pieces_terminator, IH.
  - intros c s Hc Hl _ IH. rewrite split_crlf_cons by assumption.
    simpl. rewrite Hc, Hl. simpl. rewrite Hl.
    eapply counts_pieces_char, IH.
Qed.

Lemma split_universal_cr (s : str) :
  split_universal (CR :: s) = [] :: split_after_cr s.
Proof. destruct s as [|c s]; [reflexivity|]. simpl. now destruct (c =? LF)%N. Qed.

Lemma split_universal_counts (s : str) :
  counts_pieces (split_universal s)
                (count_lines_from LF false (translate_newlines false s))
                (count_lines_from LF true (translate_newlines false s))
  /\ counts_pieces (split_after_cr s)
                   (count_lines_from LF false (translate_newlines true s))
                   (count_lines_from LF true (translate_newlines true s)).
Proof.
  induction s as [|c s [IH1 IH2]]; [split; apply counts_pieces_nil|].
  destruct (N.eqb_spec c CR) as [->|Hcr].
  - assert (H : forall b,
               counts_pieces (split_universal (CR :: s))
                 (count_lines_from LF false (translate_newlines b (CR :: s)))
                 (count_lines_from LF true (translate_newlines b (CR :: s)))).
    { intros b. rewrite split_universal_cr. simpl.
      eapply counts_pieces_terminator, IH2. }
    split; [apply H|]. apply (H true).
  - apply N.eqb_neq in Hcr. destruct (N.eqb_spec c LF) as [->|Hlf].
    + split.
      * simpl. eapply counts_pieces_terminator, IH1.
      * simpl. exact IH1.
    + apply N.eqb_neq in Hlf.
      assert (H : forall b,
                 counts_pieces (split_universal (c :: s))
                   (count_lines_from LF false (translate_newlines b (c :: s)))
                   (count_lines_from LF true (translate_newlines b (c :: s)))).
      { intros b. simpl. rewrite Hcr, Hlf. simpl. rewrite Hlf.
        eapply counts_pieces_char, IH1. }
      split; [apply H|]. unfold split_after_cr. rewrite Hlf. apply (H true).
Qed.

(** Whatever line ends a text mixes, [readlines] counts the pieces cut at
    each of them. *)
Lemma readlines_universal (text : str) :
  length (readlines text)
  = length (drop_empty_tail (split_universal text)).
Proof.
  unfold readlines. rewrite readlines_from_count. cbn [truthy].
  symmetry. apply (split_universal_counts text).
Qed.

(** A text that keeps to one convention has as many lines for
    [readlines] as it has in the spec's words. *)
Lemma readlines_spec_lines (conv : newline_convention) (text : str) :
  follows conv text = true ->
  length (readlines text) = length (spec_lines conv text).
Proof.
  intros H. unfold readlines, spec_lines.
  rewrite readlines_from_count. cbn [truthy].
  destruct conv.
  - rewrite translate_newlines_unix by assumption.
    symmetry. apply (split_counts LF text).
  - symmetry. now apply split_crlf_counts.
  - rewrite translate_newlines_classic by assumption.
    symmetry. apply (split_counts CR text).
Qed.

(** ** The ingestion loop *)

Lemma splitext_app (p : str) : fst (splitext p) ++ snd (splitext p) = p.
Proof.
  unfold splitext.
  destruct ((rfind sep p <? rfind extsep p)%Z && _); simpl.
  - apply firstn_skipn.
  - apply app_nil_r.
Qed.

Section IngestionFacts.
Variable cp932_decode : bytes -> result str.
Variable str_of_exn : exn -> str.
Variable fs : FileSystem.

Local Abbreviation ingest := (for_files cp932_decode str_of_exn fs).
Local Abbreviation line_count := (line_count_of cp932_decode fs).
Local Abbreviation report := (error_line str_of_exn).

Lemma for_files_ok (f : str) (n : nat) (rest : list str)
  (data : list Record_) (out : list str) :
  line_count f = Ok n ->
  ingest (f :: rest) data out
  = ingest rest (data ++ [mkRecord (label_of f) n]) out.
Proof.
  intros H. cbn [for_files]. now rewrite H.
Qed.

Lemma for_files_raise (f : str) (e : exn) (rest : list str)
  (data : list Record_) (out : list str) :
  line_count f = Raise e ->
  ingest (f :: rest) data out
  = ingest rest data (out ++ [report (basename f) e]).
Proof.
  intros H. cbn [for_files]. now rewrite H.
Qed.

(** The loop only appends to what was collected and printed before. *)
Lemma for_files_acc (files : list str) (data : list Record_)
  (out : list str) :
  ingest files data out
  = (data ++ fst (ingest files [] []), out ++ snd (ingest files [] [])).
Proof.
  revert data out.
  induction files as [|f files IH]; intros data out.
  - simpl. now rewrite !app_nil_r.
  - cbn [for_files]. destruct (line_count_of cp932_decode fs f) as [n|e].
    + rewrite (IH (data ++ _)), (IH ([] ++ _)). cbn [fst snd].
      now rewrite <- !app_assoc.
    + rewrite (IH _ (out ++ _)), (IH _ ([] ++ _)). cbn [fst snd].
      now rewrite <- !app_assoc.
Qed.

Lemma for_files_app (pre post : list str) (data : list Record_)
  (out : list str) :
  ingest (pre ++ post) data out
  = ingest post (fst (ingest pre data out)) (snd (ingest pre data out)).
Proof.
  revert data out.
  induction pre as [|f pre IH]; intros data out; [reflexivity|].
  cbn [app for_files].
  destruct (line_count_of cp932_decode fs f); apply IH.
Qed.

Lemma unreadable_raises (f : str) (e : exn) :
  unreadable cp932_decode fs f e -> line_count f = Raise e.
Proof.
  unfold line_count_of, read_line_count.
  intros [H|(raw & enc & Ho & Hu & Hc)].
  - rewrite H. simpl. now destruct e.
  - rewrite Ho. simpl. rewrite Hu, Hc. reflexivity.
Qed.

Lemma decodes_to_counts (f text : str) :
  decodes_to cp932_decode fs f text ->
  line_count f = Ok (length (readlines text)).
Proof.
  unfold line_count_of, read_line_count.
  intros (raw & Ho & [Hu|[(enc & Hu) Hc]]); rewrite Ho; simpl.
  - now rewrite Hu.
  - now rewrite Hu, Hc.
Qed.

Lemma error_line_contains (f : str) (e : exn) :
  contains (report (basename f) e) (label_of f)
  /\ contains (report (basename f) e) (str_of_exn e).
Proof.
  unfold error_line, contains, label_of. split.
  - exists (lit "Error reading "),
           (snd (splitext (basename f)) ++ lit ": " ++ str_of_exn e).
    rewrite <- (splitext_app (basename f)) at 1.
    now rewrite <- !app_assoc.
  - exists (lit "Error reading " ++ basename f ++ lit ": "), [].
    now rewrite app_nil_r, <- !app_assoc.
Qed.

Lemma table_rows_In (r : Record_) (data : list Record_) (k : nat) :
  In r data -> exists i, In (i, name r, count r) (table_rows k data).
Proof.
  revert k. induction data as [|d data IH]; intros k; [intros []|].
  intros [->|H]; simpl.
  - exists (k + 1). now left.
  - destruct (IH (S k) H) as (i & Hi). exists i. now right.
Qed.

Lemma load_and_analyze_table (w : Window) :
  glob_txt fs target_dir <> [] ->
  table (load_and_analyze cp932_decode str_of_exn fs w)
  = table_rows 0 (rank (fst (ingest (glob_txt fs target_dir) []
                                    (stdout w)))).
Proof.
  unfold load_and_analyze. intros Hne.
  destruct (glob_txt fs target_dir) as [|f files] eqn:E; [contradiction|].
  cbn [truthy negb].
  now destruct (for_files cp932_decode str_of_exn fs (f :: files) []
                          (stdout w)).
Qed.

(** C4: a file that cannot be opened or read, or that no supported codec
    decodes, adds no record at all; the loop prints a line holding the
    file's label and the cause, and goes on with the remaining files, whose
    records are those collected without the bad file. *)
Theorem unreadable_file_skipped
  (f : str) (e : exn) (pre post : list str) (data : list Record_)
  (out : list str) :
  unreadable cp932_decode fs f e ->
  let before := ingest pre data out in
  let line := report (basename f) e in
  ingest (pre ++ f :: post) data out
  = ingest post (fst before) (snd before ++ [line])
  /\ fst (ingest (pre ++ f :: post) data out)
     = fst (ingest (pre ++ post) data out)
  /\ In line (snd (ingest (pre ++ f :: post) data out))
  /\ contains line (label_of f)
  /\ contains line (str_of_exn e).
Proof.
  intros Hbad before line. apply unreadable_raises in Hbad.
  assert (Hstep : ingest (pre ++ f :: post) data out
                  = ingest post (fst before) (snd before ++ [line])).
  { rewrite for_files_app. now apply for_files_raise. }
  split; [exact Hstep|].
  split; [|split].
  - rewrite Hstep, (for_files_app pre post), (for_files_acc post).
    rewrite (for_files_acc post (fst _) (snd (ingest pre data out))).
    reflexivity.
  - rewrite Hstep, for_files_acc. cbn [snd].
    apply in_or_app. left. apply in_or_app. right. now left.
  - apply error_line_contains.
Qed.

(** C5: a file that is no UTF-8 but decodes as cp932 gets its record,
    with the number of lines of the cp932 text, and the record reaches the
    table. *)
Theorem cp932_file_counted
  (f : str) (raw : bytes) (encoding text : str) (pre post : list str)
  (data : list Record_) (out : list str) (w : Window) :
  open_rb fs f = Ok raw ->
  utf8_decode raw = Raise (UnicodeDecodeError encoding) ->
  cp932_decode raw = Ok text ->
  let record := mkRecord (label_of f) (length (readlines text)) in
  line_count f = Ok (length (readlines text))
  /\ ingest (pre ++ f :: post) data out
     = ingest post (fst (ingest pre data out) ++ [record])
                   (snd (ingest pre data out))
  /\ In record (fst (ingest (pre ++ f :: post) data out))
  /\ (In f (glob_txt fs target_dir) ->
      exists i,
        In (i, label_of f, length (readlines text))
           (table (load_and_analyze cp932_decode str_of_exn fs w)))
  /\ forall conv, follows conv text = true ->
       count record = length (spec_lines conv text).
Proof.
  intros Ho Hu Hc record.
  assert (Hn : line_count f = Ok (length (readlines text))).
  { apply decodes_to_counts. exists raw. split; [exact Ho|]. right.
    split; [now exists encoding|exact Hc]. }
  assert (Hstep : forall pre' post' data' out',
             ingest (pre' ++ f :: post') data' out'
             = ingest post' (fst (ingest pre' data' out') ++ [record])
                      (snd (ingest pre' data' out'))).
  { intros. rewrite for_files_app. now apply for_files_ok. }
  assert (Hin : forall pre' post' data' out',
             In record (fst (ingest (pre' ++ f :: post') data' out'))).
  { intros. rewrite Hstep, for_files_acc. cbn [fst].
    apply in_or_app. left. apply in_or_app. right. now left. }
  split; [exact Hn|]. split; [apply Hstep|]. split; [apply Hin|]. split.
  - intros Hg. rewrite load_and_analyze_table
      by (intros E; rewrite E in Hg; exact Hg).
    apply in_split in Hg as (l1 & l2 & ->).
    apply (table_rows_In record).
    eapply Permutation_in; [apply rank_perm|]. apply Hin.
  - intros conv Hf. now apply readlines_spec_lines.
Qed.

(** C8, amended: the count recorded for a decoded file is the number of
    lines of the decoded text where each of ["\r\n"], a lone ["\r"] and
    ["\n"] ends a line, a last line without line end included; for a text
    that keeps to one line-ending convention this is its number of lines
    under that convention. *)
Theorem count_is_number_of_lines
  (f text : str) (rest : list str) (data : list Record_) (out : list str) :
  decodes_to cp932_decode fs f text ->
  let lines := drop_empty_tail (split_universal text) in
  line_count f = Ok (length lines)
  /\ ingest (f :: rest) data out
     = ingest rest (data ++ [mkRecord (label_of f) (length lines)]) out
  /\ forall conv, follows conv text = true ->
       length lines = length (spec_lines conv text).
Proof.
  intros Hd lines. apply decodes_to_counts in Hd.
  rewrite readlines_universal in Hd. fold lines in Hd.
  split; [exact Hd|]. split; [now apply for_files_ok|].
  intros conv Hf. unfold lines.
  rewrite <- readlines_universal. now apply readlines_spec_lines.
Qed.

Lemma sorted_after (R : Record_ -> Record_ -> Prop) (l1 l2 : list Record_)
  (r : Record_) :
  StronglySorted R (l1 ++ r :: l2) -> Forall (R r) l2.
Proof.
  induction l1 as [|x l1 IH]; simpl; intros H; inversion H; subst; auto.
Qed.

(** C9: an empty file is not skipped: it gets a record with count 0,
    and in the ranking this record stands at a place after which all
    counts are 0, hence after every record with a positive count. *)
Theorem empty_file_counted_zero
  (f : str) (pre post : list str) (data : list Record_) (out : list str) :
  open_rb fs f = Ok [] ->
  let record := mkRecord (label_of f) 0 in
  line_count f = Ok 0
  /\ ingest (pre ++ f :: post) data out
     = ingest post (fst (ingest pre data out) ++ [record])
                   (snd (ingest pre data out))
  /\ exists higher lower,
       rank (fst (ingest (pre ++ f :: post) data out))
       = higher ++ record :: lower
       /\ (forall r, In r lower -> count r = 0)
       /\ (forall r, In r (fst (ingest (pre ++ f :: post) data out)) ->
                     0 < count r -> In r higher).
Proof.
  intros Ho record.
  assert (Hn : line_count f = Ok 0).
  { apply (decodes_to_counts (text := [])). exists []. split; [exact Ho|].
    now left. }
  assert (Hstep : ingest (pre ++ f :: post) data out
                  = ingest post (fst (ingest pre data out) ++ [record])
                           (snd (ingest pre data out))).
  { rewrite for_files_app. now apply for_files_ok. }
  split; [exact Hn|]. split; [exact Hstep|].
  set (collected := fst (ingest (pre ++ f :: post) data out)).
  pose proof (rank_perm collected) as Hperm.
  pose proof (rank_sorted collected) as Hsorted.
  assert (Hin : In record (rank collected)).
  { eapply Permutation_in; [exact Hperm|]. unfold collected.
    rewrite Hstep, for_files_acc. cbn [fst].
    apply in_or_app. left. apply in_or_app. right. now left. }
  apply in_split in Hin as (higher & lower & E).
  exists higher, lower. split; [exact E|].
  assert (Hlow : forall r, In r lower -> count r = 0).
  { unfold count_nonincreasing in Hsorted. rewrite E in Hsorted.
    apply sorted_after in Hsorted. rewrite Forall_forall in Hsorted.
    intros r Hr. specialize (Hsorted r Hr). simpl in Hsorted. lia. }
  split; [exact Hlow|].
  intros r Hr Hpos.
  apply (Permutation_in _ Hperm) in Hr. rewrite E in Hr.
  apply in_app_or in Hr as [Hr|[<-|Hr]]; [exact Hr| |].
  - simpl in Hpos. lia.
  - apply Hlow in Hr. lia.
Qed.


End IngestionFacts.

(** ** The example directory *)

(** Example for C4: [carol.txt] is neither UTF-8 nor cp932; [alice.txt]
    before it and [dave.txt] after it are collected all the same. *)
Lemma unreadable_file_skipped_witness :
  let f := lit "talk_upload/carol.txt" in
  let e := UnicodeDecodeError (lit "cp932") in
  let pre := [lit "talk_upload/alice.txt"] in
  let post := [lit "talk_upload/dave.txt"] in
  let ingest :=
    for_files cp932_single_byte_decode example_str_of_exn example_fs in
  unreadable cp932_single_byte_decode example_fs f e
  /\ fst (ingest (pre ++ f :: post) [] [])
     = [mkRecord (lit "alice") 3; mkRecord (lit "dave") 0]
  /\ In (error_line example_str_of_exn (lit "carol.txt") e)
        (snd (ingest (pre ++ f :: post) [] [])).
Proof.
  intros f e pre post ingest.
  assert (H : unreadable cp932_single_byte_decode example_fs f e).
  { right. exists [x81; x0a], (lit "utf-8").
    repeat split; reflexivity. }
  destruct (@unreadable_file_skipped cp932_single_byte_decode
              example_str_of_exn example_fs f e pre post [] [] H)
    as (_ & Hfst & Hin & _).
  subst ingest.
  split; [exact H|]. split; [rewrite Hfst; reflexivity|exact Hin].
Defined.

(** Example for C5: [bob.txt] holds half-width katakana in cp932, two
    lines. *)
Lemma cp932_file_counted_witness :
  let f := lit "talk_upload/bob.txt" in
  let raw := [xb1; xb2; x0a; xb3; x0a] in
  let text := [0xFF71; 0xFF72; 10; 0xFF73; 10]%N in
  open_rb example_fs f = Ok raw
  /\ utf8_decode raw = Raise (UnicodeDecodeError (lit "utf-8"))
  /\ cp932_single_byte_decode raw = Ok text
  /\ line_count_of cp932_single_byte_decode example_fs f = Ok 2.
Proof.
  intros f raw text.
  assert (H1 : open_rb example_fs f = Ok raw) by reflexivity.
  assert (H2 : utf8_decode raw = Raise (UnicodeDecodeError (lit "utf-8")))
    by reflexivity.
  assert (H3 : cp932_single_byte_decode raw = Ok text) by reflexivity.
  repeat (split; [assumption|]).
  exact (proj1 (@cp932_file_counted cp932_single_byte_decode
                  example_str_of_exn example_fs f raw (lit "utf-8") text
                  [] [] [] [] example_window H1 H2 H3)).
Defined.

(** Example for C8: [alice.txt] has Windows line ends and a last line
    without one, three lines. *)
Lemma count_is_number_of_lines_witness :
  let f := lit "talk_upload/alice.txt" in
  let text := [104; 105; 13; 10; 121; 111; 13; 10; 33]%N in
  decodes_to cp932_single_byte_decode example_fs f text
  /\ follows WindowsCRLF text = true
  /\ length (spec_lines WindowsCRLF text) = 3
  /\ line_count_of cp932_single_byte_decode example_fs f = Ok 3.
Proof.
  intros f text.
  assert (H1 : decodes_to cp932_single_byte_decode example_fs f text).
  { exists [x68; x69; x0d; x0a; x79; x6f; x0d; x0a; x21].
    split; [reflexivity|]. left. reflexivity. }
  assert (H2 : follows WindowsCRLF text = true) by reflexivity.
  split; [exact H1|]. split; [exact H2|]. split; [reflexivity|].
  exact (proj1 (@count_is_number_of_lines cp932_single_byte_decode
                  example_str_of_exn example_fs f text [] [] [] H1)).
Defined.

(** C8 as it was stated fails on a text that mixes line ends: the file
    holding ["a\rb\nc"] is recorded with 3 lines, and under none of the
    three conventions the text has 3 lines. *)
Lemma count_is_number_of_lines_counterexample :
  let f := lit "talk_upload/mixed.txt" in
  let text := [97; 13; 98; 10; 99]%N in
  decodes_to cp932_single_byte_decode example_fs_mixed f text
  /\ line_count_of cp932_single_byte_decode example_fs_mixed f = Ok 3
  /\ ~ exists conv,
         line_count_of cp932_single_byte_decode example_fs_mixed f
         = Ok (length (spec_lines conv text)).
Proof.
  intros f text. split.
  - exists [x61; x0d; x62; x0a; x63]. split; [reflexivity|]. left.
    reflexivity.
  - split; [reflexivity|]. intros (conv & H).
    destruct conv; vm_compute in H; discriminate.
Qed.

(** Example for C9: the empty [dave.txt]. *)
Lemma empty_file_counted_zero_witness :
  let f := lit "talk_upload/dave.txt" in
  open_rb example_fs f = Ok []
  /\ line_count_of cp932_single_byte_decode example_fs f = Ok 0.
Proof.
  intros f.
  assert (H : open_rb example_fs f = Ok []) by reflexivity.
  split; [exact H|].
  exact (proj1 (@empty_file_counted_zero cp932_single_byte_decode
                  example_str_of_exn example_fs f [] [] [] [] H)).
Defined.


(** * Further properties of the code *)

(** ** The exclusion field *)

Lemma filter_drops_all (A : Type) (f : A -> bool) (l : list A) :
  (forall x, In x l -> f x = false) -> filter f l = [].
Proof.
  induction l as [|x l IH]; [reflexivity|]. intros H. simpl.
  rewrite (H x) by now left. apply IH. intros y Hy. apply H. now right.
Qed.

(** X1: an exclusion text made of commas and white space only names
    nobody: the list of excluded names is empty and the chart shows every
    record, in reverse order of the ranking. *)
Theorem blank_exclusion_excludes_nothing
  (ranked : list Record_) (excluded_raw : str) :
  (forall c, In c excluded_raw -> c = comma \/ isspace c = true) ->
  exclude_names excluded_raw = []
  /\ filtered_data ranked excluded_raw = ranked
  /\ to_chart_series ranked excluded_raw
     = (map name (rev ranked), map count (rev ranked)).
Proof.
  intros Hraw.
  assert (He : exclude_names excluded_raw = []).
  { rewrite exclude_names_spec. unfold spec_excluded_terms.
    apply filter_drops_all. intros t Ht.
    apply in_map_iff in Ht as (piece & <- & Hp).
    rewrite strip_blank; [reflexivity|].
    apply Forall_forall. intros c Hc.
    destruct (Hraw c (split_In_chars _ _ _ _ Hp Hc)) as [->|Hs]; [|exact Hs].
    exfalso. exact (split_no_sep _ _ _ Hp Hc). }
  assert (Hf : filtered_data ranked excluded_raw = ranked).
  { unfold filtered_data. rewrite He. now apply filter_keeps_all. }
  split; [exact He|]. split; [exact Hf|].
  unfold to_chart_series, draw_chart. rewrite Hf.
  cbn [yticklabels bar_width]. now rewrite !map_rev.
Qed.

Lemma blank_exclusion_excludes_nothing_witness :
  let d := mkRecord (lit "alice") 3 in
  (forall c, In c (lit " , ,,") -> c = comma \/ isspace c = true)
  /\ filtered_data [d] (lit " , ,,") = [d].
Proof.
  intros d.
  assert (H : forall c, In c (lit " , ,,") -> c = comma \/ isspace c = true).
  { intros c Hc. simpl in Hc.
    repeat (destruct Hc as [<-|Hc]; [(now left) || (now right)|]).
    destruct Hc. }
  split; [exact H|].
  exact (proj1 (proj2 (@blank_exclusion_excludes_nothing
                        [d] (lit " , ,,") H))).
Defined.

Lemma split_join_comma (pieces : list str) :
  pieces <> [] -> Forall (fun p => ~ In comma p) pieces ->
  split comma (join_comma pieces) = pieces.
Proof.
  induction pieces as [|p [|q r] IH]; intros Hne Hp; [contradiction| |].
  - inversion Hp; subst. now apply split_without_sep.
  - inversion Hp as [|? ? Hp1 Hp2]; subst.
    change (join_comma (p :: q :: r))
      with (p ++ comma :: join_comma (q :: r)).
    rewrite split_app_sep by assumption.
    rewrite IH; [reflexivity|discriminate|assumption].
Qed.

Lemma exclude_names_join (pieces : list str) :
  Forall (fun p => ~ In comma p) pieces ->
  exclude_names (join_comma pieces) = filter truthy (map strip pieces).
Proof.
  intros Hp. rewrite exclude_names_spec. unfold spec_excluded_terms.
  destruct pieces as [|p r]; [reflexivity|].
  rewrite split_join_comma; [reflexivity|discriminate|assumption].
Qed.

(** X2: names typed one after the other with commas between them come
    out of the exclusion field as they are, in the same order, duplicates
    included. *)
Theorem exclusion_names_round_trip (names : list str) :
  Forall plain_name names ->
  exclude_names (join_comma names) = names.
Proof.
  intros H. rewrite exclude_names_join.
  - induction H as [|n names (Hn & Hs & _) _ IH]; [reflexivity|].
    simpl. rewrite Hs, IH. now destruct n.
  - eapply Forall_impl; [|exact H]. now intros n (_ & _ & Hc).
Qed.

Lemma exclusion_names_round_trip_witness :
  Forall plain_name [lit "alice"; lit "bob b"; lit "alice"]
  /\ exclude_names (lit "alice,bob b,alice")
     = [lit "alice"; lit "bob b"; lit "alice"].
Proof.
  assert (H : Forall plain_name [lit "alice"; lit "bob b"; lit "alice"]).
  { repeat constructor; try discriminate; try reflexivity;
      intros Hc; simpl in Hc;
      repeat (destruct Hc as [Hc|Hc]; [discriminate|]); exact Hc. }
  split; [exact H|].
  exact (@exclusion_names_round_trip
           [lit "alice"; lit "bob b"; lit "alice"] H).
Defined.

(** X3: every name taken from the exclusion field is trimmed: it is not
    empty, trimming it again changes nothing, and neither its first nor
    its last character is white space. *)
Theorem exclusion_names_trimmed (excluded_raw t : str) :
  In t (exclude_names excluded_raw) ->
  t <> []
  /\ strip t = t
  /\ isspace (hd 0%N t) = false
  /\ isspace (last t 0%N) = false.
Proof.
  rewrite exclude_names_spec, spec_excluded_terms_In.
  intros (Hne & piece & _ & ->).
  split; [exact Hne|]. split; [apply strip_idempotent|].
  now apply strip_ends.
Qed.

Lemma exclusion_names_trimmed_witness :
  In (lit "bob") (exclude_names (lit " alice ,, bob ,"))
  /\ strip (lit "bob") = lit "bob".
Proof.
  assert (H : In (lit "bob") (exclude_names (lit " alice ,, bob ,")))
    by (right; left; reflexivity).
  split; [exact H|].
  exact (proj1 (proj2 (@exclusion_names_trimmed
                        (lit " alice ,, bob ,") (lit "bob") H))).
Defined.

(** ** Reading lines *)

Lemma count_lines_pending_pos (sp : char) (t : str) :
  0 < count_lines_from sp true t.
Proof.
  induction t as [|c t IH]; simpl; [lia|]. destruct (c =? sp)%N; lia.
Qed.

Lemma readlines_none_iff (text : str) :
  length (readlines text) = 0 <-> text = [].
Proof.
  split; [|now intros ->].
  unfold readlines. rewrite readlines_from_count. cbn [truthy].
  destruct text as [|c t]; [reflexivity|]. intros H. exfalso.
  cbn [translate_newlines] in H.
  destruct (c =? CR)%N; [simpl in H; lia|].
  destruct (N.eqb_spec c LF) as [->|Hc]; [simpl in H; lia|].
  apply N.eqb_neq in Hc. simpl in H. rewrite Hc in H.
  pose proof (count_lines_pending_pos LF (translate_newlines false t)). lia.
Qed.

Section LineFacts.
Variable cp932_decode : bytes -> result str.
Variable fs : FileSystem.

(** X4: among the files that decode, exactly those with an empty text
    are recorded with count 0. *)
Theorem count_zero_iff_empty (f text : str) :
  decodes_to cp932_decode fs f text ->
  line_count_of cp932_decode fs f = Ok 0 <-> text = [].
Proof.
  intros Hd. rewrite (decodes_to_counts Hd). split.
  - intros [= H]. now apply readlines_none_iff.
  - now intros ->.
Qed.
End LineFacts.

Lemma count_zero_iff_empty_witness :
  decodes_to cp932_single_byte_decode example_fs
             (lit "talk_upload/dave.txt") []
  /\ line_count_of cp932_single_byte_decode example_fs
                   (lit "talk_upload/dave.txt") = Ok 0.
Proof.
  assert (H : decodes_to cp932_single_byte_decode example_fs
                         (lit "talk_upload/dave.txt") []).
  { exists []. split; [reflexivity|]. left. reflexivity. }
  split; [exact H|].
  exact (proj2 (@count_zero_iff_empty cp932_single_byte_decode example_fs
                  (lit "talk_upload/dave.txt") [] H) eq_refl).
Defined.

Lemma count_lines_after_char (c : char) (body tail : str) (b p : bool) :
  (c =? CR)%N = false -> (c =? LF)%N = false ->
  count_lines_from LF p (translate_newlines b (body ++ c :: tail)) + 1
  = count_lines_from LF p (translate_newlines b (body ++ [c]))
    + count_lines_from LF true (translate_newlines false tail).
Proof.
  intros Hcr Hlf. revert b p.
  induction body as [|x body IH]; intros b p.
  - simpl. rewrite Hcr, Hlf. simpl. rewrite Hlf. simpl. lia.
  - cbn [app translate_newlines]. destruct (x =? CR)%N.
    + simpl. specialize (IH true false). lia.
    + destruct (N.eqb_spec x LF) as [->|Hx].
      * destruct b; [apply IH|]. simpl. specialize (IH false false). lia.
      * apply N.eqb_neq in Hx. simpl. rewrite Hx. apply IH.
Qed.

(** X5: a line end after the last line adds no line: a text whose last
    character is no line end has as many lines with a final ["\n"],
    ["\r\n"] or ["\r"] as without. *)
Theorem final_line_end_adds_no_line (body tail : str) (c : char) :
  c <> CR -> c <> LF ->
  In tail [[LF]; [CR; LF]; [CR]] ->
  length (readlines (body ++ c :: tail)) = length (readlines (body ++ [c])).
Proof.
  intros Hcr Hlf Ht. apply N.eqb_neq in Hcr, Hlf.
  unfold readlines. rewrite !readlines_from_count. cbn [truthy].
  pose proof (@count_lines_after_char c body tail false false Hcr Hlf) as H.
  assert (E : count_lines_from LF true (translate_newlines false tail) = 1).
  { destruct Ht as [<-|[<-|[<-|[]]]]; reflexivity. }
  lia.
Qed.

Lemma final_line_end_adds_no_line_witness :
  (104 <> CR /\ 104 <> LF /\ In [CR; LF] [[LF]; [CR; LF]; [CR]])%N
  /\ length (readlines ([97; 10]%N ++ 104%N :: [CR; LF])) = 2.
Proof.
  assert (H1 : (104 <> CR)%N) by discriminate.
  assert (H2 : (104 <> LF)%N) by discriminate.
  assert (H3 : In [CR; LF] [[LF]; [CR; LF]; [CR]]) by (right; left; reflexivity).
  split; [now repeat split|].
  exact (eq_trans
           (@final_line_end_adds_no_line [97; 10]%N [CR; LF] 104%N H1 H2 H3)
           eq_refl).
Defined.





Lemma translate_newlines_to_crlf (text : str) :
  follows UnixLF text = true ->
  translate_newlines false (to_crlf text) = text.
Proof.
  induction text as [|c t IH]; [reflexivity|].
  intros H. cbn [follows forallb] in H. apply andb_prop in H as [Hc Ht].
  apply negb_true_iff in Hc. cbn [to_crlf flat_map].
  fold (to_crlf t). destruct (N.eqb_spec c LF) as [->|Hl].
  - simpl. now rewrite (IH Ht).
  - apply N.eqb_neq in Hl. simpl. rewrite Hc, Hl. now rewrite (IH Ht).
Qed.

(** X7: a Unix text and the same text saved with Windows line ends are
    read as the same lines, so the count of a file does not depend on
    which of the two it uses. *)
Theorem crlf_same_lines (text : str) :
  follows UnixLF text = true ->
  readlines (to_crlf text) = readlines text.
Proof.
  intros H. unfold readlines.
  now rewrite translate_newlines_to_crlf, translate_newlines_unix.
Qed.

Lemma crlf_same_lines_witness :
  follows UnixLF [97; 10; 98]%N = true
  /\ readlines [97; 13; 10; 98]%N = [[97; 10]; [98]]%N.
Proof.
  assert (H : follows UnixLF [97; 10; 98]%N = true) by reflexivity.
  split; [exact H|].
  exact (eq_trans (@crlf_same_lines [97; 10; 98]%N H) eq_refl).
Defined.

(** ** Paths and labels *)

Lemma rfind_lower (c : char) (p : str) : (-1 <= rfind c p)%Z.
Proof.
  induction p as [|x p IH]; simpl; [lia|].
  destruct (Z.leb_spec 0 (rfind c p)); [lia|]. destruct (x =? c)%N; lia.
Qed.

Lemma rfind_notin (c : char) (p : str) : ~ In c p -> rfind c p = (-1)%Z.
Proof.
  induction p as [|x p IH]; [reflexivity|]. intros H. simpl.
  rewrite IH by (intros Hin; apply H; now right). simpl.
  destruct (N.eqb_spec x c) as [->|_]; [|reflexivity].
  exfalso. apply H. now left.
Qed.

Lemma rfind_app (c : char) (a t : str) :
  ~ In c t -> rfind c (a ++ c :: t) = Z.of_nat (length a).
Proof.
  intros Ht. induction a as [|x a IH].
  - simpl. rewrite (@rfind_notin c t Ht). simpl. now rewrite N.eqb_refl.
  - cbn [app rfind length]. rewrite IH.
    destruct (Z.leb_spec 0 (Z.of_nat (length a))); lia.
Qed.

(** Where [rfind] points: at the last occurrence. *)
Lemma rfind_spec (c : char) (p : str) :
  (rfind c p = (-1)%Z /\ ~ In c p)
  \/ exists a t, p = a ++ c :: t /\ ~ In c t
                 /\ rfind c p = Z.of_nat (length a).
Proof.
  induction p as [|x p [[E Hn]|(a & t & -> & Ht & E)]].
  - left. split; [reflexivity|intros []].
  - destruct (N.eqb_spec x c) as [->|Hx].
    + right. exists [], p. repeat split; [exact Hn|].
      simpl. rewrite E. simpl. now rewrite N.eqb_refl.
    + left. split.
      * simpl. rewrite E. simpl. apply N.eqb_neq in Hx. now rewrite Hx.
      * intros [H|H]; [now apply Hx|now apply Hn].
  - right. exists (x :: a), t. repeat split; [exact Ht|].
    change ((x :: a) ++ c :: t) with (x :: (a ++ c :: t)).
    apply (@rfind_app c (x :: a) t Ht).
Qed.

Lemma skipn_past (A : Type) (a : list A) (x : A) (t : list A) :
  skipn (length a + 1) (a ++ x :: t) = t.
Proof. induction a as [|y a IH]; [reflexivity|exact IH]. Qed.

Lemma In_skipn (A : Type) (x : A) (n : nat) (l : list A) :
  In x (skipn n l) -> In x l.
Proof.
  intros H. rewrite <- (firstn_skipn n l). apply in_or_app. now right.
Qed.

Lemma endswith_app (s suffix : str) :
  endswith s suffix = true ->
  s = firstn (length s - length suffix) s ++ suffix.
Proof.
  unfold endswith. intros H. apply andb_prop in H as [_ H].
  apply str_eqb_eq in H.
  rewrite <- (firstn_skipn (length s - length suffix) s) at 1.
  now rewrite H.
Qed.

Lemma startswith_sep_false (b : str) :
  ~ In sep b -> startswith b [sep] = false.
Proof.
  intros H. unfold startswith. destruct b as [|c b]; [reflexivity|].
  simpl. unfold str_eqb. destruct (str_eq_dec [c] [sep]) as [E|_];
    [|reflexivity].
  exfalso. apply H. injection E as ->. now left.
Qed.

Lemma basename_of_join (a b : str) :
  ~ In sep b -> basename (join a b) = b.
Proof.
  intros Hb. unfold join. rewrite (@startswith_sep_false b Hb). cbn [orb].
  assert (Hplain : basename b = b).
  { unfold basename. now rewrite (@rfind_notin sep b Hb). }
  destruct a as [|x a]; [exact Hplain|]. cbn [truthy negb].
  destruct (endswith (x :: a) [sep]) eqn:E.
  - apply endswith_app in E. rewrite E, <- app_assoc.
    cbn [app]. unfold basename. rewrite (@rfind_app sep _ b Hb).
    replace (Z.to_nat (Z.of_nat (length (firstn (length (x :: a) - length [sep]) (x :: a))) + 1))
      with (length (firstn (length (x :: a) - length [sep]) (x :: a)) + 1)
      by lia.
    apply skipn_past.
  - unfold basename. rewrite (@rfind_app sep _ b Hb).
    replace (Z.to_nat (Z.of_nat (length (x :: a)) + 1))
      with (length (x :: a) + 1) by lia.
    apply skipn_past.
Qed.

(** X8: [basename] gives back the name that [join] put after the
    directory, for every directory and every name without a slash. *)
Theorem basename_join (a b : str) :
  ~ In sep b ->
  basename (join a b) = b.
Proof. apply basename_of_join. Qed.

Lemma basename_join_witness :
  ~ In sep (lit "alice.txt")
  /\ basename (lit "talk_upload/alice.txt") = lit "alice.txt".
Proof.
  assert (H : ~ In sep (lit "alice.txt")).
  { intros Hc. simpl in Hc.
    repeat (destruct Hc as [Hc|Hc]; [discriminate|]). exact Hc. }
  split; [exact H|].
  exact (eq_trans (@basename_join target_dir (lit "alice.txt") H) eq_refl).
Defined.

(** X9: [splitext] cuts the path in two parts that give it back when put
    together; the extension is empty, or it starts with a dot and holds
    no other dot and no slash. *)
Theorem splitext_root_ext (p : str) :
  fst (splitext p) ++ snd (splitext p) = p
  /\ (snd (splitext p) = []
      \/ exists t, snd (splitext p) = extsep :: t
                   /\ ~ In extsep t /\ ~ In sep t).
Proof.
  split; [apply splitext_app|].
  unfold splitext.
  destruct ((rfind sep p <? rfind extsep p)%Z && _) eqn:E;
    [|now left].
  right. apply andb_prop in E as [Hlt _]. apply Z.ltb_lt in Hlt.
  pose proof (rfind_lower sep p) as Hlow.
  destruct (rfind_spec extsep p) as [[Ed _]|(a & t & Ep & Ht & Ed)]; [lia|].
  exists t. cbn [snd]. rewrite Ed, Nat2Z.id. split; [|split].
  - rewrite Ep at 1. rewrite skipn_app, skipn_all, Nat.sub_diag. reflexivity.
  - exact Ht.
  - destruct (rfind_spec sep p) as [[_ Hn]|(a' & t' & Ep' & Ht' & Es)].
    + intros H. apply Hn. rewrite Ep. apply in_or_app. right. now right.
    + intros H. apply Ht'.
      assert (E1 : t = skipn (length a + 1) p)
        by (rewrite Ep at 1; now rewrite skipn_past).
      assert (E2 : t' = skipn (length a' + 1) p)
        by (rewrite Ep' at 1; now rewrite skipn_past).
      rewrite E1 in H.
      replace (length a + 1) with ((length a - length a') + (length a' + 1))
        in H by lia.
      rewrite <- skipn_skipn in H. apply In_skipn in H.
      now rewrite <- E2 in H.
Qed.

Lemma firstn_exact (A : Type) (a b : list A) : firstn (length a) (a ++ b) = a.
Proof.
  rewrite firstn_app, firstn_all, Nat.sub_diag. simpl. apply app_nil_r.
Qed.

(** The label of a name that the glob lets through. *)
Lemma splitext_txt (n : str) :
  ~ In sep n -> ishidden n = false -> fnmatch_txt n = true ->
  fst (splitext n) ++ lit ".txt" = n /\ fst (splitext n) <> [].
Proof.
  intros Hsep Hhid Hfn. unfold fnmatch_txt in Hfn.
  apply endswith_app in Hfn.
  set (stem := firstn (length n - length (lit ".txt")) n) in *.
  destruct stem as [|c stem'] eqn:Es.
  { rewrite Hfn in Hhid. discriminate. }
  assert (Hc : (c =? extsep)%N = false).
  { rewrite Hfn in Hhid. exact Hhid. }
  assert (Hdot : rfind extsep n = Z.of_nat (length (c :: stem'))).
  { rewrite Hfn at 1. apply (@rfind_app extsep (c :: stem')).
    intros H. simpl in H.
    repeat (destruct H as [H|H]; [discriminate|]). exact H. }
  assert (E : splitext n = (c :: stem', lit ".txt")).
  { unfold splitext. rewrite (@rfind_notin sep n Hsep), Hdot.
    replace (Z.to_nat (-1 + 1)) with 0 by lia.
    replace (Z.to_nat (Z.of_nat (length (c :: stem')) - (-1 + 1)))
      with (S (length stem')) by (simpl length; lia).
    rewrite Nat2Z.id.
    assert (Hscan : splitext_scan n 0 (S (length stem')) = true).
    { cbn [splitext_scan]. rewrite Hfn. cbn [app slice skipn firstn Nat.sub Nat.add].
      unfold str_eqb. destruct (str_eq_dec [c] [extsep]) as [Ec|_];
        [|reflexivity].
      injection Ec as ->. now rewrite N.eqb_refl in Hc. }
    rewrite Hscan.
    replace (-1 <? Z.of_nat (length (c :: stem')))%Z with true
      by (symmetry; apply Z.ltb_lt; lia).
    cbn [andb]. rewrite Hfn at 1 2.
    now rewrite firstn_exact, skipn_app, skipn_all, Nat.sub_diag. }
  rewrite E. cbn [fst]. split; [now symmetry|discriminate].
Qed.

Lemma join_target_dir (n : str) :
  ~ In sep n -> join target_dir n = target_dir ++ sep :: n.
Proof.
  intros H. unfold join. now rewrite (@startswith_sep_false n H).
Qed.

Section GlobFacts.
Variable cp932_decode : bytes -> result str.
Variable str_of_exn : exn -> str.
Variable fs : FileSystem.

Local Abbreviation ingest := (for_files cp932_decode str_of_exn fs).
Local Abbreviation names_ok :=
  (forall n, In n (scandir fs target_dir) -> ~ In sep n).

Lemma glob_txt_In (f : str) :
  In f (glob_txt fs target_dir) ->
  exists n, In n (scandir fs target_dir) /\ f = join target_dir n
            /\ ishidden n = false /\ fnmatch_txt n = true.
Proof.
  unfold glob_txt. intros H. apply in_map_iff in H as (n & <- & Hn).
  apply filter_In in Hn as [Hn Hp]. apply andb_prop in Hp as [Hh Hm].
  apply negb_true_iff in Hh. now exists n.
Qed.

(** X10: every path the glob returns is the directory, a slash and a
    listed name; its base name is that name, and its label is the name
    without the final [.txt], never empty. *)
Theorem glob_labels (f : str) :
  names_ok ->
  In f (glob_txt fs target_dir) ->
  exists n,
    In n (scandir fs target_dir)
    /\ f = target_dir ++ sep :: n
    /\ basename f = n
    /\ label_of f ++ lit ".txt" = n
    /\ label_of f <> [].
Proof.
  intros Hok Hf. apply glob_txt_In in Hf as (n & Hn & -> & Hh & Hm).
  pose proof (Hok n Hn) as Hs.
  exists n. split; [exact Hn|]. split; [now apply join_target_dir|].
  assert (Hb : basename (join target_dir n) = n) by now apply basename_of_join.
  split; [exact Hb|]. unfold label_of. rewrite Hb. now apply splitext_txt.
Qed.
End GlobFacts.

Ltac no_char_in H :=
  simpl in H; repeat (destruct H as [H|H]; [discriminate|]); exact H.

Lemma example_fs_names_ok :
  forall n, In n (scandir example_fs target_dir) -> ~ In sep n.
Proof.
  intros n Hn Hs. simpl in Hn.
  repeat (destruct Hn as [<-|Hn]; [no_char_in Hs|]). exact Hn.
Defined.

Lemma glob_labels_witness :
  In (lit "talk_upload/alice.txt") (glob_txt example_fs target_dir)
  /\ exists n, basename (lit "talk_upload/alice.txt") = n
               /\ label_of (lit "talk_upload/alice.txt") ++ lit ".txt" = n.
Proof.
  assert (H : In (lit "talk_upload/alice.txt")
                 (glob_txt example_fs target_dir)) by (left; reflexivity).
  split; [exact H|].
  destruct (@glob_labels example_fs (lit "talk_upload/alice.txt")
              example_fs_names_ok H) as (n & _ & _ & Hb & Hl & _).
  exists n. now split.
Defined.

Lemma NoDup_map_on (A B : Type) (g : A -> B) (l : list A) :
  (forall x y, In x l -> In y l -> g x = g y -> x = y) ->
  NoDup l -> NoDup (map g l).
Proof.
  intros Hinj Hl. induction Hl as [|x l Hx Hl IH]; [constructor|].
  simpl. constructor.
  - intros H. apply in_map_iff in H as (y & E & Hy).
    apply Hx. rewrite (Hinj x y); auto; [now left|now right].
  - apply IH. intros a b Ha Hb. apply Hinj; now right.
Qed.

Lemma NoDup_map_filter (A B : Type) (g : A -> B) (p : A -> bool)
  (l : list A) :
  NoDup (map g l) -> NoDup (map g (filter p l)).
Proof.
  induction l as [|x l IH]; [trivial|]. simpl. intros H.
  inversion H as [|? ? Hx Hl]; subst. destruct (p x); [|now apply IH].
  simpl. constructor; [|now apply IH].
  intros Hin. apply Hx. apply in_map_iff in Hin as (y & E & Hy).
  apply in_map_iff. exists y. split; [exact E|].
  now apply filter_In in Hy.
Qed.

Lemma table_rows_names (k : nat) (data : list Record_) :
  map (fun row : TableRow => snd (fst row)) (table_rows k data)
  = map name data.
Proof.
  revert k. induction data as [|d data IH]; intros k; [reflexivity|].
  simpl. now rewrite IH.
Qed.

Section LabelFacts.
Variable cp932_decode : bytes -> result str.
Variable str_of_exn : exn -> str.
Variable fs : FileSystem.

Local Abbreviation ingest := (for_files cp932_decode str_of_exn fs).

(** The names collected are the labels of the files that can be read. *)
Lemma for_files_names (files : list str) (data : list Record_)
  (out : list str) :
  map name (fst (ingest files data out))
  = map name data
    ++ map label_of (filter (readable cp932_decode fs) files).
Proof.
  revert data out. induction files as [|f files IH]; intros data out.
  - simpl. now rewrite app_nil_r.
  - cbn [for_files filter]. unfold readable at 1.
    destruct (line_count_of cp932_decode fs f) as [n|e]; rewrite IH.
    + rewrite map_app, <- app_assoc. reflexivity.
    + reflexivity.
Qed.

Lemma glob_labels_NoDup :
  (forall n, In n (scandir fs target_dir) -> ~ In sep n) ->
  NoDup (scandir fs target_dir) ->
  NoDup (map label_of (glob_txt fs target_dir)).
Proof.
  intros Hok Hnd. unfold glob_txt. rewrite map_map.
  set (keep := fun n => negb (ishidden n) && fnmatch_txt n).
  assert (Hl : forall n, In n (filter keep (scandir fs target_dir)) ->
                 label_of (join target_dir n) ++ lit ".txt" = n).
  { intros n Hn. apply filter_In in Hn as [Hn Hk].
    apply andb_prop in Hk as [Hh Hm]. apply negb_true_iff in Hh.
    unfold label_of. rewrite (@basename_of_join target_dir n (Hok n Hn)).
    now apply splitext_txt; [apply Hok| |]. }
  apply NoDup_map_on; [|now apply NoDup_filter].
  intros x y Hx Hy E. rewrite <- (Hl x Hx), <- (Hl y Hy). now rewrite E.
Qed.

(** X11: in a directory whose names are distinct, the files get
    distinct labels: no two records of the ranking, and no two rows of
    the table, bear the same name. *)
Theorem labels_distinct (w : Window) :
  (forall n, In n (scandir fs target_dir) -> ~ In sep n) ->
  NoDup (scandir fs target_dir) ->
  NoDup (map name (rank (fst (ingest (glob_txt fs target_dir) []
                                     (stdout w)))))
  /\ (glob_txt fs target_dir <> [] ->
      NoDup (map (fun row : TableRow => snd (fst row))
                 (table (load_and_analyze cp932_decode str_of_exn fs w)))).
Proof.
  intros Hok Hnd.
  assert (H : NoDup (map name (rank (fst (ingest (glob_txt fs target_dir) []
                                                 (stdout w)))))).
  { eapply Permutation_NoDup.
    - apply Permutation_map, rank_perm.
    - rewrite for_files_names. cbn [map app].
      apply NoDup_map_filter. now apply glob_labels_NoDup. }
  split; [exact H|]. intros Hne.
  now rewrite load_and_analyze_table, table_rows_names.
Qed.
End LabelFacts.

Lemma example_fs_NoDup : NoDup (scandir example_fs target_dir).
Proof.
  simpl. repeat constructor; intros H; simpl in H;
    repeat (destruct H as [H|H]; [discriminate|]); exact H.
Defined.

Lemma labels_distinct_witness :
  NoDup (map (fun row : TableRow => snd (fst row))
             (table (load_and_analyze cp932_single_byte_decode
                       example_str_of_exn example_fs example_window))).
Proof.
  apply (@labels_distinct cp932_single_byte_decode example_str_of_exn
           example_fs example_window example_fs_names_ok example_fs_NoDup).
  discriminate.
Defined.

(** ** The ranking, the table and the chart *)

Lemma sorted_stable_unique (l1 l2 : list Record_) :
  count_nonincreasing l1 -> count_nonincreasing l2 ->
  (forall c, with_count c l1 = with_count c l2) ->
  l1 = l2.
Proof.
  unfold count_nonincreasing, with_count. revert l2.
  induction l1 as [|x t1 IH]; intros l2 H1 H2 Hc.
  - destruct l2 as [|y t2]; [reflexivity|].
    specialize (Hc (count y)). simpl in Hc. rewrite Nat.eqb_refl in Hc.
    discriminate.
  - destruct l2 as [|y t2].
    { specialize (Hc (count x)). simpl in Hc. rewrite Nat.eqb_refl in Hc.
      discriminate. }
    inversion H1 as [|? ? Ht1 Hx]; subst.
    inversion H2 as [|? ? Ht2 Hy]; subst.
    rewrite Forall_forall in Hx, Hy.
    assert (Hxy : count x <= count y).
    { assert (Hin : In x (filter (fun r => count r =? count x) (y :: t2))).
      { rewrite <- Hc. simpl. rewrite Nat.eqb_refl. now left. }
      apply filter_In in Hin as [[->|Hin] _]; [lia|now apply Hy]. }
    assert (Hyx : count y <= count x).
    { assert (Hin : In y (filter (fun r => count r =? count y) (x :: t1))).
      { rewrite Hc. simpl. rewrite Nat.eqb_refl. now left. }
      apply filter_In in Hin as [[->|Hin] _]; [lia|now apply Hx]. }
    assert (E : count y = count x) by lia.
    pose proof (Hc (count x)) as Hh. simpl in Hh.
    rewrite E, Nat.eqb_refl in Hh. injection Hh as -> Hh.
    f_equal. apply IH; try assumption.
    intros c. specialize (Hc c). simpl in Hc.
    destruct (count y =? c); [now injection Hc|exact Hc].
Qed.

(** X12: the ranking is fixed by its two properties: a list with
    non-increasing counts that holds, for every count, the records of
    that count in their input order is the result of [rank]. *)
Theorem rank_unique (data ranked : list Record_) :
  count_nonincreasing ranked ->
  (forall c, with_count c ranked = with_count c data) ->
  ranked = rank data.
Proof.
  intros Hs Hc. apply sorted_stable_unique; [exact Hs|apply rank_sorted|].
  intros c. now rewrite Hc, rank_stable.
Qed.

Lemma rank_unique_witness :
  let a := mkRecord (lit "alice") 3 in
  let b := mkRecord (lit "bob") 10 in
  let c := mkRecord (lit "carol") 3 in
  count_nonincreasing [b; a; c] /\ rank [a; b; c] = [b; a; c].
Proof.
  intros a b c.
  assert (H1 : count_nonincreasing [b; a; c]).
  { repeat constructor; simpl; lia. }
  assert (H2 : forall n, with_count n [b; a; c] = with_count n [a; b; c]).
  { intros n. cbv [with_count filter count a b c].
    destruct (Nat.eqb_spec 10 n), (Nat.eqb_spec 3 n); try reflexivity. lia. }
  split; [exact H1|]. symmetry.
  exact (@rank_unique [a; b; c] [b; a; c] H1 H2).
Defined.

Lemma table_rows_nth_from (k i : nat) (data : list Record_) :
  nth_error (table_rows k data) i
  = option_map (fun d => (k + i + 1, name d, count d)) (nth_error data i).
Proof.
  revert k i. induction data as [|d data IH]; intros k i.
  - now destruct i.
  - destruct i as [|i]; simpl.
    + now rewrite Nat.add_0_r.
    + rewrite IH. now replace (S k + i + 1) with (k + S i + 1) by lia.
Qed.

Lemma table_rows_length (k : nat) (data : list Record_) :
  length (table_rows k data) = length data.
Proof.
  revert k. induction data as [|d data IH]; intros k; [reflexivity|].
  simpl. now rewrite IH.
Qed.

(** X13: the table has one row per record, in the order of the data,
    and the row at position [i] (from 0) shows rank [i + 1] with the
    name and the count of the record at that position. *)
Theorem table_rows_nth (data : list Record_) (i : nat) :
  length (table_rows 0 data) = length data
  /\ nth_error (table_rows 0 data) i
     = option_map (fun d => (i + 1, name d, count d)) (nth_error data i).
Proof.
  split; [apply table_rows_length|apply table_rows_nth_from].
Qed.

Lemma sorted_filter (A : Type) (R : A -> A -> Prop) (p : A -> bool)
  (l : list A) :
  StronglySorted R l -> StronglySorted R (filter p l).
Proof.
  induction 1 as [|x l Hl IH Hx]; simpl; [constructor|].
  destruct (p x); [|exact IH]. constructor; [exact IH|].
  rewrite Forall_forall in *. intros y Hy. apply Hx.
  now apply filter_In in Hy.
Qed.

Lemma sorted_map_count (l : list Record_) :
  count_nonincreasing l -> StronglySorted ge (map count l).
Proof.
  induction 1 as [|x l Hl IH Hx]; simpl; [constructor|].
  constructor; [exact IH|]. rewrite Forall_forall in *.
  intros n Hn. apply in_map_iff in Hn as (y & <- & Hy).
  unfold ge. now apply Hx.
Qed.

Lemma bars_ascending (data : list Record_) (raw : str) :
  count_nonincreasing data ->
  StronglySorted le (bar_width (draw_chart data raw)).
Proof.
  intros H. unfold draw_chart. cbn [bar_width].
  apply (sorted_rev (R := ge)), sorted_map_count.
  now apply sorted_filter.
Qed.

(** X14: the chart keeps labels and bars aligned: it has as many bars
    as labels and positions [0, 1, ...], at most one per record, and the
    label and the bar at the same position come from the same record,
    the records being those kept by the filter in reverse order. *)
Theorem chart_aligned (data : list Record_) (raw : str) :
  let c := draw_chart data raw in
  length (bar_width c) = length (yticklabels c)
  /\ bar_y c = seq 0 (length (bar_width c))
  /\ yticks c = bar_y c
  /\ length (bar_width c) <= length data
  /\ combine (yticklabels c) (bar_width c)
     = map (fun d => (name d, count d)) (rev (filtered_data data raw)).
Proof.
  unfold draw_chart. cbn [bar_width yticklabels bar_y yticks].
  rewrite !length_rev, !length_map. repeat split.
  - unfold filtered_data. apply filter_length_le.
  - rewrite <- !map_rev. apply combine_maps.
Qed.

(** X15: drawn from a ranking, the bars grow from the first to the
    last, so the record with the highest count is drawn last. *)
Theorem chart_bars_ascending (data : list Record_) (raw : str) :
  StronglySorted le (bar_width (draw_chart (rank data) raw)).
Proof. apply bars_ascending, rank_sorted. Qed.

(** ** A whole request *)

Lemma table_rows_ranks (k : nat) (data : list Record_) :
  map (fun row : TableRow => fst (fst row)) (table_rows k data)
  = seq (k + 1) (length data).
Proof.
  revert k. induction data as [|d data IH]; intros k; [reflexivity|].
  simpl. now rewrite IH.
Qed.

Lemma table_rows_counts (k : nat) (data : list Record_) :
  map (fun row : TableRow => snd row) (table_rows k data) = map count data.
Proof.
  revert k. induction data as [|d data IH]; intros k; [reflexivity|].
  simpl. now rewrite IH.
Qed.

Section RequestFacts.
Variable cp932_decode : bytes -> result str.
Variable str_of_exn : exn -> str.
Variable fs : FileSystem.

Local Abbreviation ingest := (for_files cp932_decode str_of_exn fs).
Local Abbreviation load := (load_and_analyze cp932_decode str_of_exn fs).
Local Abbreviation files := (glob_txt fs target_dir).
Local Abbreviation ranked := (rank (fst (ingest files [] []))).

(** What a request that finds files leaves in the window. *)
Lemma load_and_analyze_files (w : Window) :
  files <> [] ->
  load w
  = mkWindow (table_rows 0 ranked) (exclude_input w)
             (draw_chart ranked (exclude_input w)) (dialogs w)
             (stdout w ++ snd (ingest files [] [])).
Proof.
  unfold load_and_analyze. intros Hne.
  destruct (glob_txt fs target_dir) as [|f fl] eqn:E; [contradiction|].
  cbn [truthy negb]. rewrite (for_files_acc cp932_decode str_of_exn fs).
  reflexivity.
Qed.

Lemma for_files_lengths (fl : list str) (data : list Record_)
  (out : list str) :
  length (fst (ingest fl data out))
  = length data + length (filter (readable cp932_decode fs) fl)
  /\ length (snd (ingest fl data out))
     = length out
       + length (filter (fun f => negb (readable cp932_decode fs f)) fl).
Proof.
  revert data out. induction fl as [|f fl IH]; intros data out.
  - simpl. lia.
  - cbn [for_files filter].
    destruct (line_count_of cp932_decode fs f) as [n|e] eqn:E.
    + assert (Hr : readable cp932_decode fs f = true)
        by (unfold readable; now rewrite E).
      rewrite Hr. cbn [negb].
      destruct (IH (data ++ [mkRecord (fst (splitext (basename f))) n]) out)
        as [H1 H2].
      rewrite H1, H2, length_app. simpl. lia.
    + assert (Hr : readable cp932_decode fs f = false)
        by (unfold readable; now rewrite E).
      rewrite Hr. cbn [negb].
      destruct (IH data (out ++ [error_line str_of_exn (basename f) e]))
        as [H1 H2].
      rewrite H1, H2, length_app. simpl. lia.
Qed.

(** X16: no file is dropped silently: after a request that found
    files, the rows of the table and the lines printed by the request
    are together as many as the files found, one row for each file that
    could be read and one line for each that could not. *)
Theorem every_file_counted_or_reported (w : Window) :
  files <> [] ->
  length (table (load w))
  = length (filter (readable cp932_decode fs) files)
  /\ length (stdout (load w))
     = length (stdout w)
       + length (filter (fun f => negb (readable cp932_decode fs f)) files)
  /\ length (table (load w)) + length (stdout (load w))
     = length files + length (stdout w).
Proof.
  intros Hne. rewrite (load_and_analyze_files w Hne). cbn [table stdout].
  destruct (for_files_lengths files [] []) as [H1 H2].
  pose proof (rank_length (fst (ingest files [] []))) as Hl.
  pose proof (table_rows_length 0 ranked) as Ht.
  pose proof (filter_length (readable cp932_decode fs) files) as Hf.
  rewrite Ht, Hl, H1, length_app, H2. simpl. lia.
Qed.

(** X17: after a request that found files the table is a ranking: its
    rows are numbered 1, 2, ... and the counts do not increase from one
    row to the next. *)
Theorem table_is_ranking (w : Window) :
  files <> [] ->
  map (fun row : TableRow => fst (fst row)) (table (load w))
  = seq 1 (length (table (load w)))
  /\ StronglySorted ge (map (fun row : TableRow => snd row) (table (load w))).
Proof.
  intros Hne. rewrite (load_and_analyze_files w Hne). cbn [table].
  rewrite table_rows_ranks, table_rows_counts.
  rewrite table_rows_length. split; [reflexivity|].
  apply sorted_map_count, rank_sorted.
Qed.
End RequestFacts.

Lemma every_file_counted_or_reported_witness :
  let w := load_and_analyze cp932_single_byte_decode example_str_of_exn
                            example_fs example_window in
  glob_txt example_fs target_dir <> []
  /\ length (table w) + length (stdout w) = 5.
Proof.
  intros w.
  assert (H : glob_txt example_fs target_dir <> []) by discriminate.
  split; [exact H|].
  exact (proj2 (proj2 (@every_file_counted_or_reported
                         cp932_single_byte_decode example_str_of_exn
                         example_fs example_window H))).
Defined.

Lemma table_is_ranking_witness :
  let w := load_and_analyze cp932_single_byte_decode example_str_of_exn
                            example_fs example_window in
  glob_txt example_fs target_dir <> []
  /\ map (fun row : TableRow => fst (fst row)) (table w) = [1; 2; 3].
Proof.
  intros w.
  assert (H : glob_txt example_fs target_dir <> []) by discriminate.
  split; [exact H|].
  exact (proj1 (@table_is_ranking cp932_single_byte_decode
                  example_str_of_exn example_fs example_window H)).
Defined.

(** ** ASCII files *)

Lemma utf8_chars_ascii (bs : list N) :
  Forall (fun b => (b < 0x80)%N) bs -> utf8_chars bs = Some bs.
Proof.
  induction 1 as [|b bs Hb _ IH]; [reflexivity|].
  cbn [utf8_chars]. apply N.ltb_lt in Hb. rewrite Hb, IH. reflexivity.
Qed.

(** X19: a file of ASCII bytes is read as UTF-8, each byte one
    character, and the cp932 codec plays no part in its count. *)
Theorem ascii_file_read_as_utf8
  (cp932_decode : bytes -> result str) (fs : FileSystem) (f : str)
  (raw : bytes) :
  open_rb fs f = Ok raw ->
  Forall (fun b => (Byte.to_N b < 0x80)%N) raw ->
  utf8_decode raw = Ok (map Byte.to_N raw)
  /\ line_count_of cp932_decode fs f
     = Ok (length (readlines (map Byte.to_N raw))).
Proof.
  intros Ho Ha.
  assert (Hu : utf8_decode raw = Ok (map Byte.to_N raw)).
  { unfold utf8_decode. rewrite utf8_chars_ascii; [reflexivity|].
    apply Forall_map. exact Ha. }
  split; [exact Hu|].
  unfold line_count_of, read_line_count. rewrite Ho. simpl. now rewrite Hu.
Qed.

Lemma ascii_file_read_as_utf8_witness :
  let raw := [x68; x69; x0d; x0a; x79; x6f; x0d; x0a; x21] in
  open_rb example_fs (lit "talk_upload/alice.txt") = Ok raw
  /\ Forall (fun b => (Byte.to_N b < 0x80)%N) raw
  /\ line_count_of (fun _ => Raise (OSError 0 [])) example_fs
                   (lit "talk_upload/alice.txt") = Ok 3.
Proof.
  intros raw.
  assert (H1 : open_rb example_fs (lit "talk_upload/alice.txt") = Ok raw)
    by reflexivity.
  assert (H2 : Forall (fun b => (Byte.to_N b < 0x80)%N) raw)
    by (repeat constructor).
  split; [exact H1|]. split; [exact H2|].
  exact (proj2 (@ascii_file_read_as_utf8 (fun _ => Raise (OSError 0 []))
                  example_fs (lit "talk_upload/alice.txt") raw H1 H2)).
Defined.

(** ** The font *)

Lemma choose_font_spec (targets fonts family : list str) :
  (Forall (fun t => ~ In t fonts) targets
   /\ choose_font targets fonts family = family)
  \/ exists earlier font later,
       targets = earlier ++ font :: later
       /\ Forall (fun t => ~ In t fonts) earlier
       /\ In font fonts
       /\ choose_font targets fonts family = [font].
Proof.
  induction targets as [|t targets IH].
  - left. split; [constructor|reflexivity].
  - cbn [choose_font]. destruct (str_in t fonts) eqn:E.
    + right. exists [], t, targets. repeat split; [constructor|].
      now apply str_in_In.
    + assert (Ht : ~ In t fonts).
      { intros H. apply str_in_In in H. congruence. }
      destruct IH as [[Hall Hc]|(earlier & font & later & -> & He & Hi & Hc)].
      * left. split; [now constructor|exact Hc].
      * right. exists (t :: earlier), font, later.
        repeat split; [now constructor|exact Hi|exact Hc].
Qed.

(** X20: the font family becomes the first of the six candidate fonts,
    in the order of the list, that is installed; when none of them is
    installed the setting stays as it was. *)
Theorem configure_japanese_font_first_installed (fonts family : list str) :
  (Forall (fun t => ~ In t fonts) target_fonts
   /\ configure_japanese_font fonts family = family)
  \/ exists earlier font later,
       target_fonts = earlier ++ font :: later
       /\ Forall (fun t => ~ In t fonts) earlier
       /\ In font fonts
       /\ configure_japanese_font fonts family = [font].
Proof. apply choose_font_spec. Qed.

(** ** The texts of the table *)

Lemma chars_of_uint_digits (u : Decimal.uint) :
  Forall (fun c => isdigit c = true) (chars_of_uint u).
Proof. induction u; simpl; now constructor. Qed.

Lemma uint_of_chars_of_uint (u : Decimal.uint) :
  uint_of_chars (chars_of_uint u) = Some u.
Proof. induction u; simpl; [reflexivity|rewrite IHu; reflexivity..]. Qed.

Lemma to_uint_not_Nil (n : nat) : Nat.to_uint n <> Decimal.Nil.
Proof.
  intros H. pose proof (DecimalNat.Unsigned.of_to n) as E.
  rewrite H in E. simpl in E. subst n. discriminate.
Qed.

Lemma isdigit_not_comma (c : char) :
  isdigit c = true -> (c =? comma)%N = false.
Proof.
  unfold isdigit, comma. intros H. apply andb_prop in H as [H _].
  apply N.leb_le in H. apply N.eqb_neq. lia.
Qed.

Lemma remove_commas_group (k : nat) (ds : str) :
  Forall (fun c => isdigit c = true) ds ->
  remove_commas (group_thousands k ds) = ds.
Proof.
  intros H. revert k. induction H as [|d ds Hd _ IH]; intros k;
    [reflexivity|].
  apply isdigit_not_comma in Hd. cbn [group_thousands].
  destruct (k =? 3); cbn [remove_commas filter]; rewrite ?N.eqb_refl;
    cbn [negb]; rewrite Hd; cbn [negb]; f_equal; apply IH.
Qed.

Lemma format_thousands_round_trip (n : nat) :
  remove_commas (format_thousands n) = str_of_nat n
  /\ int_of_str (remove_commas (format_thousands n)) = Some n
  /\ int_of_str (str_of_nat n) = Some n.
Proof.
  assert (Hd : Forall (fun c => isdigit c = true) (str_of_nat n))
    by apply chars_of_uint_digits.
  assert (Hr : remove_commas (format_thousands n) = str_of_nat n).
  { unfold format_thousands, remove_commas. rewrite filter_rev.
    fold (remove_commas (group_thousands 0 (rev (str_of_nat n)))).
    rewrite remove_commas_group; [apply rev_involutive|].
    now apply Forall_rev. }
  assert (Hi : int_of_str (str_of_nat n) = Some n).
  { unfold int_of_str, str_of_nat. rewrite uint_of_chars_of_uint.
    pose proof (to_uint_not_Nil n) as Hn.
    destruct (Nat.to_uint n) eqn:E; [contradiction|..]; cbn [chars_of_uint truthy option_map];
      rewrite <- E; f_equal; apply DecimalNat.Unsigned.of_to. }
  split; [exact Hr|]. split; [now rewrite Hr|exact Hi].
Qed.

(** X21: the texts of a table row read back as the numbers they show:
    the first cell is the decimal writing of the rank, which is the
    position plus one, and the third cell without its commas is the
    decimal writing of the count of the record at that position. *)
Theorem table_texts_read_back (data : list Record_) (i : nat) (d : Record_) :
  nth_error data i = Some d ->
  exists rank_text count_text,
    nth_error (map row_texts (table_rows 0 data)) i
    = Some (rank_text, name d, count_text)
    /\ int_of_str rank_text = Some (i + 1)
    /\ remove_commas count_text = str_of_nat (count d)
    /\ int_of_str (remove_commas count_text) = Some (count d).
Proof.
  intros Hd. exists (str_of_nat (i + 1)), (format_thousands (count d)).
  split.
  - rewrite nth_error_map, (table_rows_nth_from 0 i data), Hd. reflexivity.
  - destruct (format_thousands_round_trip (count d)) as (H1 & H2 & _).
    destruct (format_thousands_round_trip (i + 1)) as (_ & _ & H3).
    now repeat split.
Qed.

Lemma table_texts_read_back_witness :
  let data := [mkRecord (lit "bob") 1234; mkRecord (lit "alice") 3] in
  nth_error data 0 = Some (mkRecord (lit "bob") 1234)
  /\ exists rank_text count_text,
       nth_error (map row_texts (table_rows 0 data)) 0
       = Some (rank_text, lit "bob", count_text)
       /\ int_of_str (remove_commas count_text) = Some 1234.
Proof.
  intros data.
  assert (H : nth_error data 0 = Some (mkRecord (lit "bob") 1234))
    by reflexivity.
  split; [exact H|].
  destruct (@table_texts_read_back data 0 (mkRecord (lit "bob") 1234) H)
    as (r & c & H1 & _ & _ & H2).
  exists r, c. now split.
Defined.

Lemma mod4_is_3 (i : nat) : i mod 4 = 3 <-> exists q, i = 4 * q + 3.
Proof.
  split.
  - intros H. exists (i / 4). pose proof (Nat.div_mod_eq i 4) as E.
    now rewrite H in E.
  - intros (q & ->). rewrite Nat.add_comm, Nat.mul_comm.
    now rewrite Nat.Div0.mod_add.
Qed.

Lemma group_thousands_commas (ds : str) :
  Forall (fun c => isdigit c = true) ds ->
  forall k i, k <= 3 ->
    nth_error (group_thousands k ds) i = Some comma
    <-> i < length (group_thousands k ds) /\ exists q, i + k = 4 * q + 3.
Proof.
  induction 1 as [|d ds Hd _ IH]; intros k i Hk.
  - simpl. split; [now destruct i|intros [H _]; lia].
  - assert (Hdc : d <> comma).
    { apply isdigit_not_comma in Hd. now apply N.eqb_neq. }
    cbn [group_thousands]. destruct (Nat.eqb_spec k 3) as [->|Hk3].
    + destruct i as [|[|i]]; cbn [nth_error length].
      * split; [intros _; split; [lia|now exists 0]|reflexivity].
      * split; [intros [= E]; contradiction|intros (_ & q & Hq); lia].
      * rewrite (IH 1 i) by lia. split; intros (Hl & q & Hq).
        -- split; [lia|]. exists (S q). lia.
        -- split; [lia|]. exists (q - 1). lia.
    + destruct i as [|i]; cbn [nth_error length].
      * split; [intros [= E]; contradiction|intros (_ & q & Hq); lia].
      * rewrite (IH (S k) i) by lia. split; intros (Hl & q & Hq);
          (split; [lia|]); exists q; lia.
Qed.

Lemma group_thousands_last (ds : str) (k : nat) :
  Forall (fun c => isdigit c = true) ds ->
  ds <> [] -> isdigit (last (group_thousands k ds) 0%N) = true.
Proof.
  intros H. revert k. induction H as [|d ds Hd Hds IH]; intros k Hne;
    [contradiction|].
  cbn [group_thousands].
  destruct ds as [|d' ds'].
  - destruct (k =? 3); exact Hd.
  - assert (Hn : d' :: ds' <> []) by discriminate.
    destruct (k =? 3).
    + specialize (IH 1 Hn). cbn [group_thousands] in *.
      destruct (1 =? 3); exact IH.
    + specialize (IH (S k) Hn). cbn [group_thousands] in *.
      destruct (S k =? 3); exact IH.
Qed.

(** X22: in the count shown in the table the commas stand at every
    fourth place from the right, and only there: counting from 0 at the
    last character, the places 3, 7, 11, ... hold a comma and all other
    places a digit; the text starts with a digit. *)
Theorem count_text_grouping (n i : nat) :
  (nth_error (rev (format_thousands n)) i = Some comma
   <-> i < length (format_thousands n) /\ i mod 4 = 3)
  /\ (forall c, nth_error (rev (format_thousands n)) i = Some c ->
                c = comma \/ isdigit c = true)
  /\ isdigit (hd 0%N (format_thousands n)) = true.
Proof.
  assert (Hd : Forall (fun c => isdigit c = true) (rev (str_of_nat n)))
    by (apply Forall_rev, chars_of_uint_digits).
  unfold format_thousands. rewrite rev_involutive, length_rev.
  split; [|split].
  - rewrite (group_thousands_commas Hd) by lia.
    rewrite Nat.add_0_r, mod4_is_3. reflexivity.
  - intros c Hc. apply nth_error_In in Hc.
    destruct (N.eqb_spec c comma) as [->|Hne]; [now left|right].
    assert (Hin : In c (remove_commas (group_thousands 0 (rev (str_of_nat n))))).
    { apply filter_In. split; [exact Hc|]. apply negb_true_iff.
      now apply N.eqb_neq. }
    rewrite (remove_commas_group 0 Hd) in Hin.
    rewrite Forall_forall in Hd. now apply Hd.
  - assert (Hne : rev (str_of_nat n) <> []).
    { unfold str_of_nat. pose proof (to_uint_not_Nil n) as Hn.
      destruct (Nat.to_uint n); [contradiction|..]; simpl;
        intros H; apply app_eq_nil in H as [_ H]; discriminate. }
    pose proof (group_thousands_last 0 Hd Hne) as Hl.
    destruct (group_thousands 0 (rev (str_of_nat n))) as [|x l] eqn:E;
      [exact Hl|].
    rewrite <- E in *. clear E.
    set (g := group_thousands 0 (rev (str_of_nat n))) in *.
    rewrite <- (rev_involutive g) in Hl.
    destruct (rev g) as [|y r]; [exact Hl|].
    simpl in Hl. rewrite last_last in Hl. exact Hl.
Qed.

(** ** UTF-8 files and their bytes *)

Lemma lines_left_other (c : char) (s : str) (b p : bool) :
  (c =? CR)%N = false -> (c =? LF)%N = false ->
  lines_left b p (c :: s) = lines_left false true s.
Proof.
  intros H1 H2. unfold lines_left. simpl. rewrite H1, H2. simpl.
  now rewrite H2.
Qed.

Lemma lines_left_high (c : char) (s : str) (b p : bool) :
  (0x80 <= c)%N -> lines_left b p (c :: s) = lines_left false true s.
Proof.
  intros H. apply lines_left_other; apply N.eqb_neq; unfold CR, LF; lia.
Qed.

Lemma lines_left_cons (c : char) (s s' : str) :
  (forall b p, lines_left b p s = lines_left b p s') ->
  forall b p, lines_left b p (c :: s) = lines_left b p (c :: s').
Proof.
  intros H b p. unfold lines_left in *. cbn [translate_newlines].
  destruct (c =? CR)%N; [simpl; now rewrite H|].
  destruct (c =? LF)%N eqn:E.
  - destruct b; [apply H|]. simpl. now rewrite H.
  - simpl. rewrite E. apply H.
Qed.

Lemma option_map_cons_Some (c : char) (o : option str) (s : str) :
  option_map (cons c) o = Some s -> exists s', o = Some s' /\ s = c :: s'.
Proof.
  destruct o as [s'|]; [|discriminate]. intros [= <-]. now exists s'.
Qed.

Ltac bounds :=
  unfold between, continuation in *;
  repeat match goal with
         | H : (_ && _)%bool = true |- _ => apply andb_prop in H as [? ?]
         | H : (_ <=? _)%N = true |- _ => apply N.leb_le in H
         | H : (_ <? _)%N = false |- _ => apply N.ltb_ge in H
         | H : (_ =? _)%N = true |- _ => apply N.eqb_eq in H
         | H : (_ =? _)%N = false |- _ => apply N.eqb_neq in H
         end.

(** A decoded UTF-8 text has its line ends where the bytes have theirs:
    the bytes of a character of several bytes are no line ends, and
    neither is the character. *)
Lemma utf8_chars_lines (n : nat) :
  forall bs s, length bs <= n -> utf8_chars bs = Some s ->
  forall b p, lines_left b p s = lines_left b p bs.
Proof.
  induction n as [|n IH]; intros bs s Hlen Hs.
  { destruct bs; [|simpl in Hlen; lia]. now injection Hs as <-. }
  destruct bs as [|b0 r0]; [now injection Hs as <-|].
  cbn [utf8_chars] in Hs. simpl in Hlen.
  destruct (b0 <? 0x80)%N eqn:E0.
  { apply option_map_cons_Some in Hs as (s' & Hs & ->).
    apply lines_left_cons. apply IH; [lia|exact Hs]. }
  destruct (between 0xC2 0xDF b0) eqn:E2.
  { destruct r0 as [|b1 r1]; [discriminate|].
    destruct (continuation b1) eqn:C1; [|discriminate].
    apply option_map_cons_Some in Hs as (s' & Hs & ->).
    intros b p. simpl in Hlen. bounds.
    rewrite !lines_left_high by lia. apply IH; [lia|exact Hs]. }
  destruct (between 0xE0 0xEF b0) eqn:E3.
  { destruct r0 as [|b1 [|b2 r2]]; try discriminate.
    destruct (between _ _ b1 && continuation b2) eqn:C; [|discriminate].
    apply option_map_cons_Some in Hs as (s' & Hs & ->).
    intros b p. simpl in Hlen.
    destruct (b0 =? 0xE0)%N eqn:Eb, (b0 =? 0xED)%N eqn:Ed; bounds;
      rewrite !lines_left_high by lia; apply IH; try lia; exact Hs. }
  destruct (between 0xF0 0xF4 b0) eqn:E4; [|discriminate].
  destruct r0 as [|b1 [|b2 [|b3 r3]]]; try discriminate.
  destruct (between _ _ b1 && continuation b2 && continuation b3) eqn:C;
    [|discriminate].
  apply option_map_cons_Some in Hs as (s' & Hs & ->).
  intros b p. simpl in Hlen.
  destruct (b0 =? 0xF0)%N eqn:Eb, (b0 =? 0xF4)%N eqn:Ed; bounds;
    rewrite !lines_left_high by lia; apply IH; try lia; exact Hs.
Qed.

(** X23: the count of a UTF-8 file is the number of lines of its bytes:
    decoding moves no line end, so counting the lines of the decoded text
    gives what counting them in the raw bytes gives. *)
Theorem utf8_count_from_bytes
  (cp932_decode : bytes -> result str) (fs : FileSystem) (f : str)
  (raw : bytes) (text : str) :
  open_rb fs f = Ok raw ->
  utf8_decode raw = Ok text ->
  length (readlines text) = length (readlines (map Byte.to_N raw))
  /\ line_count_of cp932_decode fs f
     = Ok (length (readlines (map Byte.to_N raw))).
Proof.
  intros Ho Hu.
  assert (E : length (readlines text)
              = length (readlines (map Byte.to_N raw))).
  { unfold readlines. rewrite !readlines_from_count. cbn [truthy].
    unfold utf8_decode in Hu.
    destruct (utf8_chars (map Byte.to_N raw)) as [s|] eqn:Hs;
      [|discriminate].
    injection Hu as ->.
    exact (@utf8_chars_lines (length (map Byte.to_N raw))
             (map Byte.to_N raw) text (Nat.le_refl _) Hs false false). }
  split; [exact E|]. rewrite <- E.
  unfold line_count_of, read_line_count. rewrite Ho. simpl. now rewrite Hu.
Qed.

Lemma utf8_count_from_bytes_witness :
  let raw := [x68; x69; x0d; x0a; x79; x6f; x0d; x0a; x21] in
  let text := [104; 105; 13; 10; 121; 111; 13; 10; 33]%N in
  open_rb example_fs (lit "talk_upload/alice.txt") = Ok raw
  /\ utf8_decode raw = Ok text
  /\ line_count_of cp932_single_byte_decode example_fs
                   (lit "talk_upload/alice.txt") = Ok 3.
Proof.
  intros raw text.
  assert (H1 : open_rb example_fs (lit "talk_upload/alice.txt") = Ok raw)
    by reflexivity.
  assert (H2 : utf8_decode raw = Ok text) by reflexivity.
  split; [exact H1|]. split; [exact H2|].
  exact (proj2 (@utf8_count_from_bytes cp932_single_byte_decode example_fs
                  (lit "talk_upload/alice.txt") raw text H1 H2)).
Defined.
